(** * MyContainer: a shallow embedding of [include/MyContainer.hpp]

    The container [myns::MyContainer<T>] keeps a [std::vector<T>] and offers
    six iterator classes over it.  This development embeds the container,
    its mutators and the six iterator classes, and states the behaviour of
    the container's operations against that embedding.

    Conventions of the embedding
    - [size_t] values are integers in [0, 2^64); the increments the source
      performs are written with their wrap-around ([size_t_wrap]).
    - [int] values are integers in [-2^31, 2^31); [static_cast<int>] is the
      two's complement narrowing ([static_cast_int]); signed overflow and
      unchecked out-of-range indexing are undefined behaviour ([Undefined]).
    - C++ exceptions are the [Throw] outcome.
    - A [std::vector<T>] is a [list T]; its size never exceeds
      [vector_max_size] ([vector_wf]).
    - The reference member [cont] of each iterator class is modelled by
      handing the current state of the referenced container to every
      operation that reads through it.
    - A [const T&] parameter is a [reference]: to a value outside the
      container, or to a slot of the container's own vector, read again
      at each use. *)

From Stdlib Require Import String.
From Stdlib Require Import ZArith List Bool Lia Permutation Sorted.
Import ListNotations.

Open Scope Z_scope.

(** ** Machine integers *)

Definition size_t_modulus : Z := 2 ^ 64.

(** Arithmetic on [size_t] is modulo [2^64]. *)
Definition size_t_wrap (z : Z) : Z := z mod size_t_modulus.

Definition INT_MIN : Z := - 2 ^ 31.
Definition INT_MAX : Z := 2 ^ 31 - 1.

(** [static_cast<int>(z)] for an unsigned [z]: the value congruent to [z]
    modulo [2^32] that lies in the range of [int]. *)
Definition static_cast_int (z : Z) : Z := (z + 2 ^ 31) mod 2 ^ 32 - 2 ^ 31.

(** Conversion of an [int] to [size_t], as happens when an [int] is used as
    the argument of [std::vector::operator[]]. *)
Definition int_to_size_t (z : Z) : Z := z mod size_t_modulus.

(** Upper bound of [std::vector<T>::max_size()] on an LP64 platform
    ([PTRDIFF_MAX / sizeof(T)]). *)
Definition vector_max_size : Z := 2 ^ 63 - 1.

(** ** Outcomes of a computation *)

Inductive exn : Type :=
| runtime_error (what : string)
| out_of_range (what : string).

(** [Ok] is a normal return, [Throw] a C++ exception, [Undefined] undefined
    behaviour (signed overflow, unchecked access outside a vector), and
    [OutOfFuel] says that a loop of the embedding was given too little fuel
    (it is never the outcome of an operation of the container, see the
    totality lemmas). *)
Inductive outcome (A : Type) : Type :=
| Ok (a : A)
| Throw (e : exn)
| Undefined
| OutOfFuel.

Arguments Ok {A} a.
Arguments Throw {A} e.
Arguments Undefined {A}.
Arguments OutOfFuel {A}.

Definition bind {A B : Type} (m : outcome A) (k : A -> outcome B) : outcome B :=
  match m with
  | Ok a => k a
  | Throw e => Throw e
  | Undefined => Undefined
  | OutOfFuel => OutOfFuel
  end.

Declare Scope outcome_scope.
Delimit Scope outcome_scope with outcome.
Notation "x <- m ;; k" := (bind m (fun x => k))
  (at level 100, m at next level, right associativity) : outcome_scope.
Notation "' p <- m ;; k" := (bind m (fun p => k))
  (at level 100, p pattern, m at next level, right associativity) : outcome_scope.
Open Scope outcome_scope.

(** Signed addition on [int]; overflow is undefined behaviour. *)
Definition int_add (a b : Z) : outcome Z :=
  let r := a + b in
  if (INT_MIN <=? r) && (r <=? INT_MAX) then Ok r else Undefined.

(** ** std::vector *)

Section Vector.
Context {T : Type}.

Definition vec_size (v : list T) : Z := Z.of_nat (length v).

Definition vec_empty (v : list T) : bool :=
  match v with [] => true | _ :: _ => false end.

Definition vector_wf (v : list T) : Prop := vec_size v <= vector_max_size.

(** [v[i]] for a [size_t] index [i]: no bounds check. *)
Definition vec_index (v : list T) (i : Z) : outcome T :=
  if (0 <=? i) && (i <? vec_size v)
  then match nth_error v (Z.to_nat i) with
       | Some x => Ok x
       | None => Undefined
       end
  else Undefined.

(** [v.at(i)]: bounds checked. *)
Definition vec_at (v : list T) (i : Z) : outcome T :=
  if vec_size v <=? i then Throw (out_of_range "vector::at"%string)
  else vec_index v i.

Definition push_back (v : list T) (x : T) : list T := v ++ [x].

(** [v.erase(first, last)] on iterators given as indices. *)
Definition vec_erase (v : list T) (first last : nat) : list T :=
  firstn first v ++ skipn last v.

(** What a [const T&] refers to: a value that lives outside the vector
    (a temporary, a local), or the slot of the vector at an index, as in
    [c.remove(c[0])]. *)
Inductive reference : Type :=
| External (value : T)
| Slot (index : nat).

(** Reading through a reference, given the vector as it is now; a
    reference to a slot that does not exist is dangling. *)
Definition read (v : list T) (r : reference) : outcome T :=
  match r with
  | External value => Ok value
  | Slot index =>
      match nth_error v index with
      | Some x => Ok x
      | None => Undefined
      end
  end.

(** [*it] for an iterator [it] given as an index. *)
Definition vec_read (v : list T) (it : nat) : outcome T :=
  match nth_error v it with
  | Some x => Ok x
  | None => Undefined
  end.

(** [*it = x]. *)
Definition vec_assign (v : list T) (it : nat) (x : T) : outcome (list T) :=
  if Nat.ltb it (length v)
  then Ok (firstn it v ++ x :: skipn (S it) v)
  else Undefined.

Section Algorithms.
(** [operator==] of the element type. *)
Variable eqb : T -> T -> bool.

(** What a move leaves in its source: the same value for [int], an empty
    string for [std::string]. *)
Variable moved_from : T -> T.

(** Index of the first slot equal to a fixed [value], or the length when
    there is none. *)
Fixpoint first_equal (v : list T) (value : T) : nat :=
  match v with
  | [] => O
  | x :: v' => if eqb x value then O else S (first_equal v' value)
  end.

(** [std::find(first, last, value)] over the suffix [v] of the vector
    [whole]: the offset of the first slot [x] with [x == value], or the
    length of [v] when there is none.  [value] is read through the
    reference at each comparison. *)
Fixpoint find_from (whole : list T) (value : reference) (v : list T)
  : outcome nat :=
  match v with
  | [] => Ok O
  | x :: v' =>
      y <- read whole value ;;
      if eqb x y then Ok O
      else i <- find_from whole value v' ;; Ok (S i)
  end.

Definition std_find (v : list T) (value : reference) : outcome nat :=
  find_from v value v.

(** The loop of [std::remove]: for each [first] up to [last], unless the
    slot under [first] equals [value], that slot is moved to the slot
    under [result] and [result] is advanced.  The vector is overwritten in place, and [value] is read through the
    reference at each comparison, so a reference to a slot sees what the
    loop has written there. *)
Fixpoint remove_loop (fuel : nat) (v : list T) (value : reference)
         (first result : nat) : outcome (list T * nat) :=
  match fuel with
  | O => OutOfFuel
  | S fuel' =>
      if Nat.eqb first (length v) then Ok (v, result)
      else
        x <- vec_read v first ;;
        y <- read v value ;;
        if eqb x y then remove_loop fuel' v value (S first) result
        else
          v1 <- vec_assign v first (moved_from x) ;;
          v2 <- vec_assign v1 result x ;;
          remove_loop fuel' v2 value (S first) (S result)
  end.

(** [std::remove(v.begin(), v.end(), value)]: find the first slot equal
    to [value]; if there is one, run the loop from the slot after it with
    [result] at it.  The outcome is the vector after the call and the
    returned iterator. *)
Definition std_remove (v : list T) (value : reference) : outcome (list T * nat) :=
  first <- std_find v value ;;
  if Nat.eqb first (length v) then Ok (v, first)
  else remove_loop (length v) v value (S first) first.

(** Number of slots equal to [value]. *)
Definition occurrences (v : list T) (value : T) : Z :=
  vec_size (filter (fun x => eqb x value) v).
End Algorithms.
End Vector.

Arguments reference T : clear implicits.
Arguments External {T} value.
Arguments Slot {T} index.

(** ** The container *)

Section Container.
(** The element type with its [operator==], [operator<] and [operator>]
    ([std::greater<T>] calls the latter). *)
Variable T : Type.
Variable eqb : T -> T -> bool.
Variable ltb : T -> T -> bool.
Variable gtb : T -> T -> bool.

(** [std::sort(first, last, comp)] on a whole vector.  The algorithm is
    the standard library's; the development relies on its contract only
    (see [SortContract] below). *)
Variable std_sort : (T -> T -> bool) -> list T -> list T.

(** What a move of an element leaves in its source. *)
Variable moved_from : T -> T.

Record MyContainer : Type := mkContainer { data : list T }.

Definition empty_container : MyContainer := {| data := [] |}.

(** [add] takes a [const T&] as well; [push_back] appends the value the
    reference has at the call, also when it refers to a slot of the
    vector itself, so the value is all that matters. *)
Definition add (value : T) (c : MyContainer) : MyContainer :=
  {| data := push_back (data c) value |}.

(** [remove(const T& value)] returns its outcome together with the
    container after the call.  The reference is handed on to [std::find]
    and to [std::remove]. *)
Definition remove (value : reference T) (c : MyContainer)
  : outcome unit * MyContainer :=
  match std_find eqb (data c) value with
  | Ok found =>
      if Nat.eqb found (length (data c))
      then (Throw (runtime_error "Element not found"%string), c)
      else
        match std_remove eqb moved_from (data c) value with
        | Ok (v, it) => (Ok tt, {| data := vec_erase v it (length v) |})
        | Throw e => (Throw e, c)
        | Undefined => (Undefined, c)
        | OutOfFuel => (OutOfFuel, c)
        end
  | Throw e => (Throw e, c)
  | Undefined => (Undefined, c)
  | OutOfFuel => (OutOfFuel, c)
  end.

Definition size (c : MyContainer) : Z := vec_size (data c).

Definition get_data (c : MyContainer) : list T := data c.

Definition at_ (c : MyContainer) (index : Z) : outcome T := vec_at (data c) index.

Definition subscript (c : MyContainer) (index : Z) : outcome T :=
  vec_index (data c) index.

(** *** The interface shared by the six iterator classes

    Every class has [operator*], [operator++], [operator==],
    [operator!=], [begin()] and [end()]; the comparison operators look at
    the member [pos] only.  The container argument of [deref] and [end_]
    is the current state of the container the member [cont] refers to. *)
Class Iterator (I : Type) : Type := {
  deref : MyContainer -> I -> outcome T;
  incr : I -> I;
  position : I -> Z;
  begin_ : I -> I;
  end_ : MyContainer -> I -> I
}.

Definition iter_eq {I : Type} `{Iterator I} (a b : I) : bool :=
  position a =? position b.

Definition iter_neq {I : Type} `{Iterator I} (a b : I) : bool :=
  negb (iter_eq a b).

(** *** AscendingOrder *)
Record AscendingOrder : Type := mkAscendingOrder {
  AscendingOrder_sorted : list T;
  AscendingOrder_pos : Z
}.

Definition AscendingOrder_ctor (c : MyContainer) : AscendingOrder :=
  {| AscendingOrder_sorted := std_sort ltb (get_data c);
     AscendingOrder_pos := 0 |}.

Definition AscendingOrder_deref (it : AscendingOrder) : outcome T :=
  if vec_size (AscendingOrder_sorted it) <=? AscendingOrder_pos it
  then Throw (out_of_range "AscendingOrder dereference out of bounds"%string)
  else vec_index (AscendingOrder_sorted it) (AscendingOrder_pos it).

Definition AscendingOrder_incr (it : AscendingOrder) : AscendingOrder :=
  {| AscendingOrder_sorted := AscendingOrder_sorted it;
     AscendingOrder_pos := size_t_wrap (AscendingOrder_pos it + 1) |}.

Definition AscendingOrder_begin (it : AscendingOrder) : AscendingOrder := it.

Definition AscendingOrder_end (it : AscendingOrder) : AscendingOrder :=
  {| AscendingOrder_sorted := AscendingOrder_sorted it;
     AscendingOrder_pos := vec_size (AscendingOrder_sorted it) |}.

#[export] Instance AscendingOrder_Iterator : Iterator AscendingOrder := {|
  deref := fun _ => AscendingOrder_deref;
  incr := AscendingOrder_incr;
  position := AscendingOrder_pos;
  begin_ := AscendingOrder_begin;
  end_ := fun _ => AscendingOrder_end
|}.

(** *** DescendingOrder *)
Record DescendingOrder : Type := mkDescendingOrder {
  DescendingOrder_sorted : list T;
  DescendingOrder_pos : Z
}.

Definition DescendingOrder_ctor (c : MyContainer) : DescendingOrder :=
  {| DescendingOrder_sorted := std_sort gtb (get_data c);
     DescendingOrder_pos := 0 |}.

Definition DescendingOrder_deref (it : DescendingOrder) : outcome T :=
  if vec_size (DescendingOrder_sorted it) <=? DescendingOrder_pos it
  then Throw (out_of_range "DescendingOrder dereference out of bounds"%string)
  else vec_index (DescendingOrder_sorted it) (DescendingOrder_pos it).

Definition DescendingOrder_incr (it : DescendingOrder) : DescendingOrder :=
  {| DescendingOrder_sorted := DescendingOrder_sorted it;
     DescendingOrder_pos := size_t_wrap (DescendingOrder_pos it + 1) |}.

Definition DescendingOrder_begin (it : DescendingOrder) : DescendingOrder := it.

Definition DescendingOrder_end (it : DescendingOrder) : DescendingOrder :=
  {| DescendingOrder_sorted := DescendingOrder_sorted it;
     DescendingOrder_pos := vec_size (DescendingOrder_sorted it) |}.

#[export] Instance DescendingOrder_Iterator : Iterator DescendingOrder := {|
  deref := fun _ => DescendingOrder_deref;
  incr := DescendingOrder_incr;
  position := DescendingOrder_pos;
  begin_ := DescendingOrder_begin;
  end_ := fun _ => DescendingOrder_end
|}.

(** *** SideCrossOrder *)
Record SideCrossOrder : Type := mkSideCrossOrder {
  SideCrossOrder_order : list T;
  SideCrossOrder_pos : Z
}.

(** The [while (left <= right)] loop of the constructor; [left] and
    [right] are [size_t]. *)
Fixpoint SideCrossOrder_loop (fuel : nat) (sorted : list T) (left right : Z)
         (order : list T) : outcome (list T) :=
  match fuel with
  | O => OutOfFuel
  | S fuel' =>
      if left <=? right then
        order' <-
          (if left =? right then
             x <- vec_index sorted left ;;
             Ok (push_back order x)
           else
             x <- vec_index sorted left ;;
             y <- vec_index sorted right ;;
             Ok (push_back (push_back order x) y)) ;;
        let left' := size_t_wrap (left + 1) in
        let right' := if 0 <? right then size_t_wrap (right - 1) else right in
        SideCrossOrder_loop fuel' sorted left' right' order'
      else Ok order
  end.

Definition SideCrossOrder_ctor (c : MyContainer) : outcome SideCrossOrder :=
  let sorted := std_sort ltb (get_data c) in
  if vec_empty sorted
  then Ok {| SideCrossOrder_order := []; SideCrossOrder_pos := 0 |}
  else
    order <- SideCrossOrder_loop (S (length sorted)) sorted
               0 (size_t_wrap (vec_size sorted - 1)) [] ;;
    Ok {| SideCrossOrder_order := order; SideCrossOrder_pos := 0 |}.

Definition SideCrossOrder_deref (it : SideCrossOrder) : outcome T :=
  if vec_size (SideCrossOrder_order it) <=? SideCrossOrder_pos it
  then Throw (out_of_range "SideCrossOrder dereference out of bounds"%string)
  else vec_index (SideCrossOrder_order it) (SideCrossOrder_pos it).

Definition SideCrossOrder_incr (it : SideCrossOrder) : SideCrossOrder :=
  {| SideCrossOrder_order := SideCrossOrder_order it;
     SideCrossOrder_pos := size_t_wrap (SideCrossOrder_pos it + 1) |}.

Definition SideCrossOrder_begin (it : SideCrossOrder) : SideCrossOrder := it.

Definition SideCrossOrder_end (it : SideCrossOrder) : SideCrossOrder :=
  {| SideCrossOrder_order := SideCrossOrder_order it;
     SideCrossOrder_pos := vec_size (SideCrossOrder_order it) |}.

#[export] Instance SideCrossOrder_Iterator : Iterator SideCrossOrder := {|
  deref := fun _ => SideCrossOrder_deref;
  incr := SideCrossOrder_incr;
  position := SideCrossOrder_pos;
  begin_ := SideCrossOrder_begin;
  end_ := fun _ => SideCrossOrder_end
|}.

(** *** ReverseOrder: no copy, the member [cont] is read at every
    dereference and by [end()] *)
Record ReverseOrder : Type := mkReverseOrder { ReverseOrder_pos : Z }.

Definition ReverseOrder_ctor (c : MyContainer) : ReverseOrder :=
  {| ReverseOrder_pos := 0 |}.

Definition ReverseOrder_deref (cont : MyContainer) (it : ReverseOrder) : outcome T :=
  let data := get_data cont in
  if vec_size data <=? ReverseOrder_pos it
  then Throw (out_of_range "ReverseOrder dereference out of bounds"%string)
  else vec_index data (size_t_wrap (size_t_wrap (vec_size data - 1) - ReverseOrder_pos it)).

Definition ReverseOrder_incr (it : ReverseOrder) : ReverseOrder :=
  {| ReverseOrder_pos := size_t_wrap (ReverseOrder_pos it + 1) |}.

Definition ReverseOrder_begin (it : ReverseOrder) : ReverseOrder := it.

Definition ReverseOrder_end (cont : MyContainer) (it : ReverseOrder) : ReverseOrder :=
  {| ReverseOrder_pos := vec_size (get_data cont) |}.

#[export] Instance ReverseOrder_Iterator : Iterator ReverseOrder := {|
  deref := ReverseOrder_deref;
  incr := ReverseOrder_incr;
  position := ReverseOrder_pos;
  begin_ := ReverseOrder_begin;
  end_ := ReverseOrder_end
|}.

(** *** Order: no copy either *)
Record Order : Type := mkOrder { Order_pos : Z }.

Definition Order_ctor (c : MyContainer) : Order := {| Order_pos := 0 |}.

Definition Order_deref (cont : MyContainer) (it : Order) : outcome T :=
  let data := get_data cont in
  if vec_size data <=? Order_pos it
  then Throw (out_of_range "Order dereference out of bounds"%string)
  else vec_index data (Order_pos it).

Definition Order_incr (it : Order) : Order :=
  {| Order_pos := size_t_wrap (Order_pos it + 1) |}.

Definition Order_begin (it : Order) : Order := it.

Definition Order_end (cont : MyContainer) (it : Order) : Order :=
  {| Order_pos := vec_size (get_data cont) |}.

#[export] Instance Order_Iterator : Iterator Order := {|
  deref := Order_deref;
  incr := Order_incr;
  position := Order_pos;
  begin_ := Order_begin;
  end_ := Order_end
|}.

(** *** MiddleOutOrder *)
Record MiddleOutOrder : Type := mkMiddleOutOrder {
  MiddleOutOrder_order : list T;
  MiddleOutOrder_pos : Z
}.

(** The [while (left >= 0 || right < static_cast<int>(data.size()))] loop
    of the constructor; [left] and [right] are [int]. *)
Fixpoint MiddleOutOrder_loop (fuel : nat) (data : list T) (left right : Z)
         (order : list T) : outcome (list T) :=
  match fuel with
  | O => OutOfFuel
  | S fuel' =>
      if (0 <=? left) || (right <? static_cast_int (vec_size data)) then
        '(order1, left1) <-
          (if 0 <=? left then
             x <- vec_index data (int_to_size_t left) ;;
             left' <- int_add left (-1) ;;
             Ok (push_back order x, left')
           else Ok (order, left)) ;;
        '(order2, right2) <-
          (if right <? static_cast_int (vec_size data) then
             x <- vec_index data (int_to_size_t right) ;;
             right' <- int_add right 1 ;;
             Ok (push_back order1 x, right')
           else Ok (order1, right)) ;;
        MiddleOutOrder_loop fuel' data left1 right2 order2
      else Ok order
  end.

Definition MiddleOutOrder_ctor (c : MyContainer) : outcome MiddleOutOrder :=
  let data := get_data c in
  if vec_empty data
  then Ok {| MiddleOutOrder_order := []; MiddleOutOrder_pos := 0 |}
  else
    let mid := vec_size data / 2 in
    m <- vec_index data mid ;;
    left <- int_add (static_cast_int mid) (-1) ;;
    right <- int_add (static_cast_int mid) 1 ;;
    order <- MiddleOutOrder_loop (S (length data)) data left right
               (push_back [] m) ;;
    Ok {| MiddleOutOrder_order := order; MiddleOutOrder_pos := 0 |}.

Definition MiddleOutOrder_deref (it : MiddleOutOrder) : outcome T :=
  if vec_size (MiddleOutOrder_order it) <=? MiddleOutOrder_pos it
  then Throw (out_of_range "MiddleOutOrder dereference out of bounds"%string)
  else vec_index (MiddleOutOrder_order it) (MiddleOutOrder_pos it).

Definition MiddleOutOrder_incr (it : MiddleOutOrder) : MiddleOutOrder :=
  {| MiddleOutOrder_order := MiddleOutOrder_order it;
     MiddleOutOrder_pos := size_t_wrap (MiddleOutOrder_pos it + 1) |}.

Definition MiddleOutOrder_begin (it : MiddleOutOrder) : MiddleOutOrder := it.

Definition MiddleOutOrder_end (it : MiddleOutOrder) : MiddleOutOrder :=
  {| MiddleOutOrder_order := MiddleOutOrder_order it;
     MiddleOutOrder_pos := vec_size (MiddleOutOrder_order it) |}.

#[export] Instance MiddleOutOrder_Iterator : Iterator MiddleOutOrder := {|
  deref := fun _ => MiddleOutOrder_deref;
  incr := MiddleOutOrder_incr;
  position := MiddleOutOrder_pos;
  begin_ := MiddleOutOrder_begin;
  end_ := fun _ => MiddleOutOrder_end
|}.

(** *** Accessors *)
Definition ascending_order (c : MyContainer) : AscendingOrder := AscendingOrder_ctor c.
Definition descending_order (c : MyContainer) : DescendingOrder := DescendingOrder_ctor c.
Definition sidecross_order (c : MyContainer) : outcome SideCrossOrder := SideCrossOrder_ctor c.
Definition reverse_order (c : MyContainer) : ReverseOrder := ReverseOrder_ctor c.
Definition order (c : MyContainer) : Order := Order_ctor c.
Definition middle_out_order (c : MyContainer) : outcome MiddleOutOrder := MiddleOutOrder_ctor c.

(** *** A full traversal

    [for (auto x : view) ...], that is
    [for (auto b = view.begin(), e = view.end(); b != e; ++b) { x = *b; ... }],
    collecting the elements the body sees.  [cont] is the state of the
    container while the loop runs. *)
Fixpoint for_loop {I : Type} `{Iterator I} (fuel : nat) (cont : MyContainer)
         (it last : I) : outcome (list T) :=
  match fuel with
  | O => OutOfFuel
  | S fuel' =>
      if iter_neq it last then
        x <- deref cont it ;;
        xs <- for_loop fuel' cont (incr it) last ;;
        Ok (x :: xs)
      else Ok []
  end.

Definition traverse {I : Type} `{Iterator I} (cont : MyContainer) (view : I)
  : outcome (list T) :=
  let b := begin_ view in
  let e := end_ cont view in
  for_loop (S (Z.to_nat (position e))) cont b e.

(** [n] applications of [operator++]. *)
Fixpoint advance {I : Type} `{Iterator I} (n : nat) (it : I) : I :=
  match n with
  | O => it
  | S n' => advance n' (incr it)
  end.

(** [Walks elems what]: an iterator class walks the vector
    [elems cont it] front to back.  [operator*] throws
    [out_of_range what] at and past the end and otherwise yields the slot
    at [pos]; [operator++] adds one to [pos]; [begin()] is a copy of the
    iterator; [end()] is a copy with [pos] set to the size. *)
Record Walks {I : Type} `{Iterator I}
       (elems : MyContainer -> I -> list T) (what : string) : Prop := {
  walks_deref : forall cont it,
    vector_wf (elems cont it) -> 0 <= position it ->
    deref cont it =
      if vec_size (elems cont it) <=? position it
      then Throw (out_of_range what)
      else vec_index (elems cont it) (position it);
  walks_incr_position : forall it,
    position (incr it) = size_t_wrap (position it + 1);
  walks_incr_elems : forall cont it, elems cont (incr it) = elems cont it;
  walks_begin : forall it, begin_ it = it;
  walks_end_position : forall cont it,
    position (end_ cont it) = vec_size (elems cont it);
  walks_end_elems : forall cont it, elems cont (end_ cont it) = elems cont it
}.

(** What [operator++] does to a cursor over [elems cont it]: it adds one
    to [pos] modulo [2^64] wherever the cursor is; on a cursor between
    the beginning and the end that is the next slot; and a cursor that
    was at the end is then past it, differs from [end()] and throws
    [out_of_range what] when dereferenced. *)
Definition advances_by_one {I : Type} `{Iterator I}
           (elems : MyContainer -> I -> list T) (what : string) : Prop :=
  forall cont it,
    position (incr it) = size_t_wrap (position it + 1) /\
    (vector_wf (elems cont it) ->
     0 <= position it <= vec_size (elems cont it) ->
     position (incr it) = position it + 1 /\
     (position it = vec_size (elems cont it) ->
      iter_eq (incr it) (end_ cont it) = false /\
      deref cont (incr it) = Throw (out_of_range what))).

(** *** Mutations of the container by its owner *)
Inductive mutation : Type :=
| Add (value : T)
| Remove (value : reference T).

(** A [remove] that throws is caught by the caller, who goes on with the
    container as [remove] left it.  (A reference to a slot that does not
    exist cannot reach [remove]: the access that would make it is the
    caller's; for it the container is left as it is.) *)
Definition apply_mutation (c : MyContainer) (m : mutation) : MyContainer :=
  match m with
  | Add value => add value c
  | Remove value => snd (remove value c)
  end.

Definition apply_mutations (ms : list mutation) (c : MyContainer) : MyContainer :=
  fold_left apply_mutation ms c.

(** *** The orders in the words of the specification *)

(** Side-cross: from [n] unconsumed elements, of which [asc] lists the
    low end upward and [desc] the high end downward, take the lowest,
    then the highest, and move inward; a single remaining element is
    emitted once. *)
Fixpoint take_alternately (n : nat) (asc desc : list T) : list T :=
  match n with
  | O => []
  | S O => match asc with x :: _ => [x] | [] => [] end
  | S (S n') =>
      match asc, desc with
      | x :: asc', y :: desc' => x :: y :: take_alternately n' asc' desc'
      | _, _ => []
      end
  end.

Definition side_cross_of_sorted (sorted : list T) : list T :=
  take_alternately (length sorted) sorted (rev sorted).

(** Middle-out: [lefts] are the elements left of the middle, nearest
    first, [rights] those right of it, nearest first; emit one of the
    left, one of the right, and so on, skipping a side that is
    exhausted. *)
Fixpoint alternate (lefts rights : list T) : list T :=
  match lefts, rights with
  | [], _ => rights
  | _, [] => lefts
  | x :: lefts', y :: rights' => x :: y :: alternate lefts' rights'
  end.

Definition middle_out_spec (data : list T) : list T :=
  let mid := Nat.div (length data) 2 in
  match nth_error data mid with
  | None => []
  | Some m => m :: alternate (rev (firstn mid data)) (skipn (S mid) data)
  end.

(** [survivors value v v']: [v'] is [v] with exactly the slots equal to
    [value] deleted, the others staying in their order. *)
Inductive survivors (value : T) : list T -> list T -> Prop :=
| survivors_nil : survivors value [] []
| survivors_drop : forall x v v',
    eqb x value = true -> survivors value v v' -> survivors value (x :: v) v'
| survivors_keep : forall x v v',
    eqb x value = false -> survivors value v v' ->
    survivors value (x :: v) (x :: v').

(** [comp] is a strict weak ordering, as [std::sort] requires. *)
Record strict_weak_order (comp : T -> T -> bool) : Prop := {
  swo_irrefl : forall x, comp x x = false;
  swo_trans : forall x y z, comp x y = true -> comp y z = true -> comp x z = true;
  swo_incomparable : forall x y z,
    comp x y = false -> comp y x = false ->
    comp y z = false -> comp z y = false ->
    comp x z = false /\ comp z x = false
}.

(** A range is sorted with respect to [comp] when no later element is
    [comp]-before an earlier one. *)
Definition sorted_by (comp : T -> T -> bool) (v : list T) : Prop :=
  StronglySorted (fun a b => comp b a = false) v.

(** The contract of [std::sort]. *)
Record SortContract : Prop := {
  sort_permutes : forall comp v,
    strict_weak_order comp -> Permutation (std_sort comp v) v;
  sort_sorts : forall comp v,
    strict_weak_order comp -> sorted_by comp (std_sort comp v)
}.

End Container.

Arguments data {T} _.
Arguments mkContainer {T} _.
Arguments empty_container {T}.
Arguments add {T} value c.
Arguments remove {T} eqb moved_from value c.
Arguments size {T} c.
Arguments get_data {T} c.
Arguments at_ {T} c index.
Arguments subscript {T} c index.
Arguments Iterator T I : clear implicits.
Arguments deref {T I _} _ _.
Arguments incr {T I _} _.
Arguments position {T I _} _.
Arguments begin_ {T I _} _.
Arguments end_ {T I _} _ _.
Arguments iter_eq {T I _} a b.
Arguments iter_neq {T I _} a b.
Arguments for_loop {T I _} fuel cont it last.
Arguments traverse {T I _} cont view.
Arguments advance {T I _} n it.
Arguments Walks {T I _} elems what.
Arguments advances_by_one {T I _} elems what.
Arguments walks_deref {T I _ elems what} _ cont it.
Arguments walks_incr_position {T I _ elems what} _ it.
Arguments walks_incr_elems {T I _ elems what} _ cont it.
Arguments walks_begin {T I _ elems what} _ it.
Arguments walks_end_position {T I _ elems what} _ cont it.
Arguments walks_end_elems {T I _ elems what} _ cont it.
Arguments Add {T} value.
Arguments Remove {T} value.
Arguments apply_mutation {T} eqb moved_from c m.
Arguments apply_mutations {T} eqb moved_from ms c.
Arguments take_alternately {T} n asc desc.
Arguments side_cross_of_sorted {T} sorted.
Arguments alternate {T} lefts rights.
Arguments middle_out_spec {T} data.
Arguments survivors {T} eqb value _ _.
Arguments strict_weak_order {T} comp.
Arguments sorted_by {T} comp v.
Arguments SortContract {T} std_sort.
Arguments AscendingOrder_ctor {T} ltb std_sort c.
Arguments DescendingOrder_ctor {T} gtb std_sort c.
Arguments SideCrossOrder_ctor {T} ltb std_sort c.
Arguments SideCrossOrder_loop {T} fuel sorted left right order.
Arguments MiddleOutOrder_ctor {T} c.
Arguments MiddleOutOrder_loop {T} fuel data left right order.
Arguments ReverseOrder_ctor {T} c.
Arguments Order_ctor {T} c.
Arguments ascending_order {T} ltb std_sort c.
Arguments descending_order {T} gtb std_sort c.
Arguments sidecross_order {T} ltb std_sort c.
Arguments reverse_order {T} c.
Arguments order {T} c.
Arguments middle_out_order {T} c.

(** ** A sort that meets the contract

    Insertion sort with respect to an arbitrary comparison; it shows that
    the contract can be met and instantiates the container for the
    examples. *)

Section InsertionSort.
Context {T : Type} (comp : T -> T -> bool).

Fixpoint insert_sorted (x : T) (v : list T) : list T :=
  match v with
  | [] => [x]
  | y :: v' => if comp x y then x :: y :: v' else y :: insert_sorted x v'
  end.

Definition insertion_sort (v : list T) : list T :=
  fold_right insert_sorted [] v.
End InsertionSort.

(** ** Containers of integers used in the examples *)

Definition int_store (v : list Z) : MyContainer Z := mkContainer v.

(** Moving an [int] copies it. *)
Definition int_moved_from (x : Z) : Z := x.

(** A container of [2^31] elements, one more than [INT_MAX]. *)
Definition huge_store : MyContainer Z :=
  mkContainer (repeat 0 (Z.to_nat (2 ^ 31))).

(** A container of [2^32 - 2] elements: its middle index is [INT_MAX]. *)
Definition overflow_store : MyContainer Z :=
  mkContainer (repeat 0 (Z.to_nat (2 ^ 32 - 2))).

(** The six iterators over a container of integers, with insertion sort
    in the place of [std::sort]. *)
Definition int_ascending (c : MyContainer Z) : AscendingOrder Z :=
  ascending_order Z.ltb insertion_sort c.
Definition int_descending (c : MyContainer Z) : DescendingOrder Z :=
  descending_order Z.gtb insertion_sort c.
Definition int_sidecross (c : MyContainer Z) : outcome (SideCrossOrder Z) :=
  sidecross_order Z.ltb insertion_sort c.

(** ** Printing: [operator<<(std::ostream&, const MyContainer<T>&)] *)

Section Printing.
Context {T : Type}.

(** [operator<<] of the element type: the text it appends to a stream. *)
Variable show : T -> string.

(** The loop [for (size_t i = 0; i < c.get_data().size(); ++i)] of
    [operator<<]; the stream [os] is the text written to it so far. *)
Fixpoint print_loop (fuel : nat) (c : MyContainer T) (i : Z) (os : string)
  : outcome string :=
  match fuel with
  | O => OutOfFuel
  | S fuel' =>
      if i <? vec_size (get_data c) then
        x <- vec_index (get_data c) i ;;
        let os1 := (os ++ show x)%string in
        let os2 :=
          if size_t_wrap (i + 1) <? vec_size (get_data c)
          then (os1 ++ ", ")%string else os1 in
        print_loop fuel' c (size_t_wrap (i + 1)) os2
      else Ok os
  end.

Definition operator_shift_left (os : string) (c : MyContainer T) : outcome string :=
  os' <- print_loop (S (length (get_data c))) c 0 (os ++ "{")%string ;;
  Ok (os' ++ "}")%string.

(** The rendering in words: the elements in insertion order, separated by
    a comma and a space, between braces. *)
Definition rendering (c : MyContainer T) : string :=
  ("{" ++ String.concat ", " (map show (data c)) ++ "}")%string.

End Printing.

(** ** Statements about a whole iterator class *)

Section Protocol.
Context {T I : Type} `{Iterator T I}.

(** [operator*] is checked: on a cursor before the end of [elems cont it]
    it yields the slot at the cursor's position, at the end and past it it
    throws [out_of_range what]; in particular the cursor [end()] throws,
    and no position leads to undefined behaviour. *)
Definition dereference_is_checked
           (elems : MyContainer T -> I -> list T) (what : string) : Prop :=
  forall cont it,
    vector_wf (elems cont it) -> 0 <= position it ->
    (position it < vec_size (elems cont it) ->
     exists x, nth_error (elems cont it) (Z.to_nat (position it)) = Some x /\
               deref cont it = Ok x) /\
    (vec_size (elems cont it) <= position it ->
     deref cont it = Throw (out_of_range what)) /\
    deref cont (end_ cont it) = Throw (out_of_range what) /\
    deref cont it <> Undefined.

(** A view whose own cursor was advanced [n] times is traversed from slot
    [n] on: [begin()] copies the cursor where it stands.  Advanced past
    the end, the traversal throws [out_of_range what] at its first
    dereference. *)
Definition traversal_resumes
           (elems : MyContainer T -> I -> list T) (what : string) : Prop :=
  forall cont view (n : nat),
    vector_wf (elems cont view) -> position view = 0 ->
    (Z.of_nat n <= vec_size (elems cont view) ->
     traverse cont (advance n view) = Ok (skipn n (elems cont view))) /\
    (vec_size (elems cont view) < Z.of_nat n < size_t_modulus ->
     traverse cont (advance n view) = Throw (out_of_range what)).

End Protocol.

(** * Properties *)

(** ** Machine integers *)

Lemma size_t_wrap_small (z : Z) : 0 <= z < size_t_modulus -> size_t_wrap z = z.
Proof. intros Hz. unfold size_t_wrap. now apply Z.mod_small. Qed.

Lemma static_cast_int_small (z : Z) :
  INT_MIN <= z <= INT_MAX -> static_cast_int z = z.
Proof.
  unfold INT_MIN, INT_MAX, static_cast_int. intros Hz.
  rewrite Z.mod_small; lia.
Qed.

Lemma int_to_size_t_nonneg (z : Z) : 0 <= z <= INT_MAX -> int_to_size_t z = z.
Proof.
  unfold INT_MAX, int_to_size_t, size_t_modulus. intros Hz.
  apply Z.mod_small. lia.
Qed.

Lemma int_add_in_range (a b : Z) :
  INT_MIN <= a + b <= INT_MAX -> int_add a b = Ok (a + b).
Proof.
  intros [Hlo Hhi]. unfold int_add.
  apply Z.leb_le in Hlo, Hhi. cbv zeta. now rewrite Hlo, Hhi.
Qed.

(** ** Vectors *)

Section VectorFacts.
Context {T : Type}.
Implicit Types (v : list T) (x : T).

Lemma vec_size_nonneg v : 0 <= vec_size v.
Proof. unfold vec_size. lia. Qed.

Lemma vec_size_app v w : vec_size (v ++ w) = vec_size v + vec_size w.
Proof. unfold vec_size. rewrite length_app. lia. Qed.

Lemma vec_size_cons x v : vec_size (x :: v) = 1 + vec_size v.
Proof. unfold vec_size. simpl length. lia. Qed.

Lemma vec_empty_nil v : vec_empty v = true <-> v = [].
Proof. destruct v; simpl; split; congruence. Qed.

Lemma vec_empty_false v : 0 < vec_size v -> vec_empty v = false.
Proof. destruct v; cbn; [lia | reflexivity]. Qed.

Lemma vec_index_in_range v i x :
  nth_error v (Z.to_nat i) = Some x -> 0 <= i -> vec_index v i = Ok x.
Proof.
  intros Hnth Hi. unfold vec_index.
  assert (Hlt : i < vec_size v).
  { unfold vec_size.
    assert (Z.to_nat i < length v)%nat
      by (apply nth_error_Some; congruence).
    lia. }
  apply Z.leb_le in Hi. apply Z.ltb_lt in Hlt.
  now rewrite Hi, Hlt, Hnth.
Qed.

Lemma vec_index_out_of_range v i :
  i < 0 \/ vec_size v <= i -> vec_index v i = Undefined.
Proof.
  intros Hi. unfold vec_index.
  destruct (0 <=? i) eqn:E0; [|reflexivity].
  destruct (i <? vec_size v) eqn:E1; [|reflexivity].
  apply Z.leb_le in E0. apply Z.ltb_lt in E1. lia.
Qed.
End VectorFacts.

(** ** Removal *)

Section RemoveFacts.
Context {T : Type} (eqb : T -> T -> bool) (moved_from : T -> T).
Implicit Types (v : list T) (value : T) (r : reference T) (c : MyContainer T).

Lemma first_equal_le v value : (first_equal eqb v value <= length v)%nat.
Proof.
  induction v as [|x v IH]; simpl; [lia|].
  destruct (eqb x value); lia.
Qed.

(** The first slot equal to [value] is the end exactly when no slot
    equals [value]. *)
Lemma first_equal_end v value :
  first_equal eqb v value = length v <-> occurrences eqb v value = 0.
Proof.
  unfold occurrences, vec_size.
  induction v as [|x v IH]; simpl.
  - split; reflexivity.
  - destruct (eqb x value); simpl length.
    + split; intros H; [discriminate | lia].
    + split; intros H.
      * apply IH. congruence.
      * f_equal. now apply IH.
Qed.

(** [std::find] writes nothing, so it sees one value behind the
    reference. *)
Lemma find_from_read (whole : list T) r v value :
  read whole r = Ok value ->
  find_from eqb whole r v = Ok (first_equal eqb v value).
Proof.
  intros Hread. induction v as [|x v IH]; cbn [find_from first_equal];
    [reflexivity|].
  rewrite Hread. cbn [bind]. destruct (eqb x value); [reflexivity|].
  now rewrite IH.
Qed.

Lemma std_find_read v r value :
  read v r = Ok value -> std_find eqb v r = Ok (first_equal eqb v value).
Proof. apply find_from_read. Qed.

Lemma filter_length_le (f : T -> bool) v : (length (filter f v) <= length v)%nat.
Proof.
  induction v as [|x v IH]; simpl; [lia|].
  destruct (f x); simpl; lia.
Qed.

Lemma filter_split_size value v :
  vec_size (filter (fun x => negb (eqb x value)) v)
  = vec_size v - occurrences eqb v value.
Proof.
  unfold occurrences, vec_size.
  induction v as [|x v IH]; [reflexivity|].
  cbn [filter]. destruct (eqb x value); cbn [negb length]; lia.
Qed.

Lemma filter_survivors value v :
  survivors eqb value v (filter (fun x => negb (eqb x value)) v).
Proof.
  induction v as [|x v IH]; simpl.
  - constructor.
  - destruct (eqb x value) eqn:E; simpl.
    + now apply survivors_drop.
    + now apply survivors_keep.
Qed.

(** The relation [survivors] determines its result: it is the
    subsequence of the slots that differ from [value]. *)
Lemma survivors_functional value v v1 v2 :
  survivors eqb value v v1 -> survivors eqb value v v2 -> v1 = v2.
Proof.
  intros H1. revert v2.
  induction H1 as [|x v v' E _ IH|x v v' E _ IH]; intros v2 H2;
    inversion H2; subst; try congruence; auto.
  f_equal. auto.
Qed.

(** Up to the first slot equal to [value] every slot is kept. *)
Lemma first_equal_split v value :
  (first_equal eqb v value < length v)%nat ->
  exists pre m rest,
    v = pre ++ m :: rest /\
    length pre = first_equal eqb v value /\
    eqb m value = true /\
    filter (fun x => negb (eqb x value)) pre = pre.
Proof.
  induction v as [|x v IH]; cbn [first_equal length]; [lia|].
  destruct (eqb x value) eqn:E; intros Hlt.
  - exists [], x, v. repeat apply conj; reflexivity || assumption.
  - destruct IH as (pre & m & rest & Hv & Hlen & Hm & Hpre); [lia|].
    exists (x :: pre), m, rest. repeat apply conj.
    + cbn [app]. now rewrite <- Hv.
    + cbn [length]. now rewrite Hlen.
    + assumption.
    + cbn [filter]. rewrite E. cbn [negb]. now rewrite Hpre.
Qed.

Lemma vec_read_middle (a b : list T) (x : T) :
  vec_read (a ++ x :: b) (length a) = Ok x.
Proof.
  unfold vec_read. rewrite nth_error_app2, Nat.sub_diag by lia. reflexivity.
Qed.

Lemma vec_assign_middle (a b : list T) (x z : T) :
  vec_assign (a ++ x :: b) (length a) z = Ok (a ++ z :: b).
Proof.
  unfold vec_assign.
  replace (length a <? length (a ++ x :: b))%nat with true
    by (symmetry; apply Nat.ltb_lt; rewrite length_app; cbn; lia).
  rewrite firstn_app, firstn_all, Nat.sub_diag, firstn_O, app_nil_r.
  replace (S (length a)) with (length a + 1)%nat by lia.
  rewrite skipn_app, skipn_all2 by lia.
  replace (length a + 1 - length a)%nat with 1%nat by lia.
  reflexivity.
Qed.

(** Invariant of the loop for a value outside the vector: [pre] holds the
    slots kept so far, [hole] the slots between [result] and [first],
    [rest] the slots still to be looked at.  The loop returns, with the
    kept slots of [rest] appended to [pre]. *)
Lemma remove_loop_external value (rest : list T) :
  forall (fuel : nat) (pre hole : list T),
    hole <> [] -> (length rest < fuel)%nat ->
    exists tail,
      remove_loop eqb moved_from fuel (pre ++ hole ++ rest) (External value)
                  (length pre + length hole) (length pre)
      = Ok (pre ++ filter (fun x => negb (eqb x value)) rest ++ tail,
            (length pre + length (filter (fun x => negb (eqb x value)) rest))%nat).
Proof.
  induction rest as [|y rest IH]; intros fuel pre hole Hhole Hfuel;
    (destruct fuel as [|fuel]; [cbn in Hfuel; lia|]); cbn [remove_loop].
  - exists hole. rewrite app_nil_r.
    replace (length pre + length hole =? length (pre ++ hole))%nat with true
      by (symmetry; apply Nat.eqb_eq; now rewrite length_app).
    cbn [filter app length]. now rewrite Nat.add_0_r.
  - replace (length pre + length hole =? length (pre ++ hole ++ y :: rest))%nat
      with false
      by (symmetry; apply Nat.eqb_neq; rewrite !length_app; cbn; lia).
    assert (Hshape : pre ++ hole ++ y :: rest = (pre ++ hole) ++ y :: rest)
      by now rewrite app_assoc.
    assert (Hlen : (length pre + length hole)%nat = length (pre ++ hole))
      by now rewrite length_app.
    rewrite Hshape, Hlen, vec_read_middle. cbn [bind read].
    cbn [length] in Hfuel.
    destruct (eqb y value) eqn:E; cbn [filter]; rewrite E; cbn [negb].
    + destruct (IH fuel pre (hole ++ [y])) as [tail Htail];
        [now destruct hole | lia |].
      exists tail. rewrite <- Htail. f_equal.
      * now rewrite <- !app_assoc.
      * rewrite !length_app. cbn. lia.
    + rewrite vec_assign_middle. cbn [bind].
      destruct hole as [|h hole]; [congruence|].
      replace ((pre ++ h :: hole) ++ moved_from y :: rest)
        with (pre ++ h :: (hole ++ moved_from y :: rest))
        by now rewrite <- app_assoc.
      rewrite vec_assign_middle. cbn [bind].
      destruct (IH fuel (pre ++ [y]) (hole ++ [moved_from y])) as [tail Htail];
        [now destruct hole | lia |].
      exists tail. cbn [length app].
      replace (pre ++ y :: hole ++ moved_from y :: rest)
        with ((pre ++ [y]) ++ (hole ++ [moved_from y]) ++ rest)
        by (rewrite <- !app_assoc; reflexivity).
      replace (S (length (pre ++ h :: hole)))
        with (length (pre ++ [y]) + length (hole ++ [moved_from y]))%nat
        by (rewrite !length_app; cbn; lia).
      replace (S (length pre)) with (length (pre ++ [y]))
        by (rewrite length_app; cbn; lia).
      rewrite Htail. f_equal. f_equal.
      * now rewrite <- !app_assoc.
      * rewrite length_app. cbn. lia.
Qed.

Lemma vec_assign_length v (it : nat) (x : T) v' :
  vec_assign v it x = Ok v' -> length v' = length v.
Proof.
  unfold vec_assign. destruct (Nat.ltb_spec it (length v)) as [Hlt|Hge];
    [|discriminate].
  intros Hv.
  assert (Hv' : v' = firstn it v ++ x :: skipn (S it) v) by congruence.
  rewrite Hv', length_app, length_firstn. cbn [length].
  rewrite length_skipn. lia.
Qed.

(** Whatever the reference, the loop is through before the fuel that
    [std_remove] gives it is used up. *)
Lemma remove_loop_fuel (fuel : nat) v r (first result : nat) :
  (length v - first < fuel)%nat ->
  remove_loop eqb moved_from fuel v r first result <> OutOfFuel.
Proof.
  revert v first result.
  induction fuel as [|fuel IH]; intros v first result Hfuel; [lia|].
  cbn [remove_loop].
  destruct (Nat.eqb_spec first (length v)) as [E|E]; [discriminate|].
  destruct (vec_read v first) as [x| | |] eqn:Hx; cbn [bind]; try discriminate.
  2:{ unfold vec_read in Hx. destruct (nth_error v first); discriminate. }
  assert (Hlt : (first < length v)%nat).
  { apply nth_error_Some. unfold vec_read in Hx.
    destruct (nth_error v first); [discriminate 1 | discriminate Hx]. }
  destruct (read v r) as [y| | |] eqn:Hy; cbn [bind]; try discriminate.
  2:{ destruct r as [z|i]; cbn [read] in Hy; [discriminate|].
      destruct (nth_error v i); discriminate. }
  destruct (eqb x y).
  - apply IH. lia.
  - destruct (vec_assign v first (moved_from x)) as [v1| | |] eqn:H1;
      cbn [bind]; try discriminate.
    2:{ unfold vec_assign in H1. destruct (first <? length v)%nat; discriminate. }
    destruct (vec_assign v1 result x) as [v2| | |] eqn:H2;
      cbn [bind]; try discriminate.
    2:{ unfold vec_assign in H2. destruct (result <? length v1)%nat; discriminate. }
    apply IH.
    rewrite (vec_assign_length _ _ _ _ H2), (vec_assign_length _ _ _ _ H1). lia.
Qed.

(** [erase(std::remove(...), end())] for a value outside the vector
    leaves the kept slots. *)
Lemma erase_remove value v :
  occurrences eqb v value <> 0 ->
  exists w it,
    std_remove eqb moved_from v (External value) = Ok (w, it) /\
    vec_erase w it (length w) = filter (fun x => negb (eqb x value)) v.
Proof.
  intros Hocc. unfold std_remove.
  rewrite (std_find_read v (External value) value) by reflexivity.
  cbn [bind].
  assert (Hlt : (first_equal eqb v value < length v)%nat).
  { pose proof (first_equal_le v value).
    destruct (Nat.eq_dec (first_equal eqb v value) (length v)) as [E|E]; [|lia].
    apply first_equal_end in E. contradiction. }
  replace (first_equal eqb v value =? length v)%nat with false
    by (symmetry; apply Nat.eqb_neq; lia).
  destruct (first_equal_split v value Hlt) as (pre & m & rest & Hv & Hlen & Hm & Hpre).
  rewrite <- Hlen. clear Hlen Hlt Hocc. subst v.
  destruct (remove_loop_external value rest (length (pre ++ m :: rest)) pre [m])
    as [tail Htail]; [discriminate | rewrite length_app; cbn; lia |].
  cbn [length app] in Htail.
  replace (S (length pre)) with (length pre + 1)%nat by lia.
  rewrite Htail.
  eexists. eexists. split; [reflexivity|].
  unfold vec_erase. rewrite skipn_all, app_nil_r.
  set (kept := filter (fun x => negb (eqb x value)) rest).
  replace (pre ++ kept ++ tail) with ((pre ++ kept) ++ tail)
    by now rewrite <- app_assoc.
  replace (length pre + length kept)%nat with (length (pre ++ kept))
    by now rewrite length_app.
  rewrite firstn_app, firstn_all, Nat.sub_diag, firstn_O, app_nil_r.
  rewrite filter_app. cbn [filter]. rewrite Hm. cbn [negb].
  now rewrite Hpre.
Qed.

Lemma remove_found value c :
  occurrences eqb (data c) value <> 0 ->
  remove eqb moved_from (External value) c
  = (Ok tt, mkContainer (filter (fun x => negb (eqb x value)) (data c))).
Proof.
  intros Hk. unfold remove.
  rewrite (std_find_read (data c) (External value) value) by reflexivity.
  destruct (Nat.eqb _ _) eqn:E.
  - apply Nat.eqb_eq in E. apply first_equal_end in E. contradiction.
  - destruct (erase_remove value (data c) Hk) as (w & it & Hrm & Her).
    now rewrite Hrm, Her.
Qed.

Lemma remove_not_found r value c :
  read (data c) r = Ok value ->
  occurrences eqb (data c) value = 0 ->
  remove eqb moved_from r c
  = (Throw (runtime_error "Element not found"%string), c).
Proof.
  intros Hread Hk. unfold remove.
  rewrite (std_find_read (data c) r value Hread).
  apply first_equal_end in Hk. rewrite Hk, Nat.eqb_refl. reflexivity.
Qed.

(** X18: removing a value that lives outside the container's vector and
    occupies [k >= 1] slots succeeds, shrinks the container by exactly
    [k], leaves no slot equal to the value and keeps the other slots in
    their order; removing a value that occupies no slot (in particular
    from an empty container) ends in the exception
    [runtime_error "Element not found"], not in undefined behaviour. *)
Theorem remove_all_occurrences value c :
  let k := occurrences eqb (data c) value in
  (1 <= k ->
   exists c',
     remove eqb moved_from (External value) c = (Ok tt, c') /\
     size c' = size c - k /\
     Forall (fun x => eqb x value = false) (data c') /\
     survivors eqb value (data c) (data c'))
  /\
  (k = 0 ->
   fst (remove eqb moved_from (External value) c)
   = Throw (runtime_error "Element not found"%string)).
Proof.
  cbv zeta. split.
  - intros Hk. eexists. split; [apply remove_found; lia|].
    unfold size. cbn [data]. split; [apply filter_split_size|].
    split; [|apply filter_survivors].
    apply Forall_forall. intros x Hx. apply filter_In in Hx.
    destruct Hx as [_ Hx]. now apply negb_true_iff in Hx.
  - intros Hk. now rewrite (remove_not_found (External value) value).
Qed.

(** C10: a [remove] that reports "Element not found" leaves the
    container exactly as it was: same slots, same order, same
    duplicates.  This holds whatever the argument refers to (a value
    outside the container or one of its slots), as long as no slot equals
    the value referred to. *)
Theorem remove_failure_keeps_store r value c :
  read (data c) r = Ok value ->
  occurrences eqb (data c) value = 0 ->
  remove eqb moved_from r c
  = (Throw (runtime_error "Element not found"%string), c).
Proof. apply remove_not_found. Qed.

End RemoveFacts.

(** ** The cursor protocol *)

Section IteratorFacts.
Context {T I : Type} `{Iterator T I}.
Variable elems : MyContainer T -> I -> list T.
Variable what : string.
Hypothesis walks : Walks elems what.

Lemma skipn_nth_error_cons (l : list T) (n : nat) (x : T) :
  nth_error l n = Some x -> skipn n l = x :: skipn (S n) l.
Proof.
  revert l. induction n as [|n IH]; intros [|y l]; simpl; try discriminate.
  - congruence.
  - apply IH.
Qed.

(** The loop from a cursor between the beginning and the end yields the
    slots from the cursor on; the fuel bounds the number of rounds. *)
Lemma for_loop_walks (fuel : nat) (cont : MyContainer T) (it last : I) :
  vector_wf (elems cont it) ->
  position last = vec_size (elems cont it) ->
  0 <= position it <= vec_size (elems cont it) ->
  (Z.to_nat (vec_size (elems cont it) - position it) < fuel)%nat ->
  for_loop fuel cont it last
  = Ok (skipn (Z.to_nat (position it)) (elems cont it)).
Proof.
  revert it. induction fuel as [|fuel IH]; intros it Hwf Hlast Hpos Hfuel;
    [lia|].
  cbn [for_loop]. unfold iter_neq, iter_eq. rewrite Hlast.
  destruct (position it =? vec_size (elems cont it)) eqn:E; cbn [negb].
  - apply Z.eqb_eq in E. rewrite E. unfold vec_size.
    now rewrite Nat2Z.id, skipn_all.
  - apply Z.eqb_neq in E.
    rewrite (walks_deref walks) by (assumption || lia).
    destruct (vec_size (elems cont it) <=? position it) eqn:E1;
      [apply Z.leb_le in E1; lia|].
    destruct (nth_error (elems cont it) (Z.to_nat (position it)))
      as [x|] eqn:Hnth.
    2:{ apply nth_error_None in Hnth. unfold vec_size in *. lia. }
    rewrite (vec_index_in_range _ _ _ Hnth) by lia. cbn [bind].
    assert (Hnext : position (incr it) = position it + 1).
    { rewrite (walks_incr_position walks). apply size_t_wrap_small.
      unfold vector_wf, vector_max_size, size_t_modulus in *. lia. }
    rewrite IH; rewrite ?(walks_incr_elems walks), ?Hnext;
      try assumption; try lia.
    cbn [bind]. f_equal.
    replace (Z.to_nat (position it + 1)) with (S (Z.to_nat (position it)))
      by lia.
    symmetry. now apply skipn_nth_error_cons.
Qed.

(** A full traversal of a view whose own cursor is at the beginning
    returns, and yields the whole walked vector. *)
Lemma traverse_walks (cont : MyContainer T) (view : I) :
  vector_wf (elems cont view) -> position view = 0 ->
  traverse cont view = Ok (elems cont view).
Proof.
  intros Hwf Hpos. unfold traverse. cbv zeta.
  rewrite (walks_begin walks), (walks_end_position walks).
  pose proof (vec_size_nonneg (elems cont view)).
  rewrite for_loop_walks; rewrite ?Hpos;
    try assumption; try apply (walks_end_position walks); try lia.
  reflexivity.
Qed.

(** From a cursor past the end the first dereference throws. *)
Lemma for_loop_past_end (fuel : nat) (cont : MyContainer T) (it last : I) :
  vector_wf (elems cont it) ->
  position last = vec_size (elems cont it) ->
  vec_size (elems cont it) < position it ->
  for_loop (S fuel) cont it last = Throw (out_of_range what).
Proof.
  intros Hwf Hlast Hpos. pose proof (vec_size_nonneg (elems cont it)).
  cbn [for_loop]. unfold iter_neq, iter_eq. rewrite Hlast.
  replace (position it =? vec_size (elems cont it)) with false
    by (symmetry; apply Z.eqb_neq; lia).
  cbn [negb]. rewrite (walks_deref walks) by (assumption || lia).
  replace (vec_size (elems cont it) <=? position it) with true
    by (symmetry; apply Z.leb_le; lia).
  reflexivity.
Qed.

(** A full traversal never runs out of the fuel it is given. *)
Lemma traverse_total (cont : MyContainer T) (view : I) :
  vector_wf (elems cont view) -> 0 <= position view ->
  traverse cont view <> OutOfFuel.
Proof.
  intros Hwf Hpos. unfold traverse. cbv zeta.
  rewrite (walks_begin walks), (walks_end_position walks).
  pose proof (vec_size_nonneg (elems cont view)).
  destruct (Z_le_gt_dec (position view) (vec_size (elems cont view))).
  - rewrite for_loop_walks;
      try assumption; try apply (walks_end_position walks); try lia.
    discriminate.
  - rewrite for_loop_past_end;
      try assumption; try apply (walks_end_position walks); try lia.
    discriminate.
Qed.

(** The result of the loop does not depend on the fuel once there is
    enough of it. *)
Lemma for_loop_fuel_mono (fuel fuel' : nat) (cont : MyContainer T) (it last : I) :
  (fuel <= fuel')%nat ->
  for_loop fuel cont it last <> OutOfFuel ->
  for_loop fuel' cont it last = for_loop fuel cont it last.
Proof.
  revert fuel' it. induction fuel as [|fuel IH]; intros fuel' it Hle Hrun.
  - now contradiction Hrun.
  - destruct fuel' as [|fuel']; [lia|]. cbn [for_loop] in *.
    destruct (iter_neq it last); [|reflexivity].
    destruct (deref cont it) as [x| | |]; cbn [bind] in *; try reflexivity.
    rewrite (IH fuel' (incr it)); [reflexivity|lia|].
    intros Hout. rewrite Hout in Hrun. now apply Hrun.
Qed.

Lemma advance_position (n : nat) (it : I) :
  0 <= position it < size_t_modulus ->
  position (advance n it) = size_t_wrap (position it + Z.of_nat n).
Proof.
  revert it. induction n as [|n IH]; intros it Hit; cbn [advance].
  - rewrite Z.add_0_r. symmetry. now apply size_t_wrap_small.
  - rewrite IH.
    + rewrite (walks_incr_position walks). unfold size_t_wrap.
      rewrite Zplus_mod_idemp_l. f_equal. lia.
    + rewrite (walks_incr_position walks). unfold size_t_wrap.
      apply Z.mod_pos_bound. unfold size_t_modulus. lia.
Qed.

End IteratorFacts.

(** ** The six classes follow the cursor protocol *)

Section Instances.
Context {T : Type}.

Lemma AscendingOrder_walks :
  Walks (fun (_ : MyContainer T) it => AscendingOrder_sorted T it)
        "AscendingOrder dereference out of bounds".
Proof. constructor; reflexivity. Qed.

Lemma DescendingOrder_walks :
  Walks (fun (_ : MyContainer T) it => DescendingOrder_sorted T it)
        "DescendingOrder dereference out of bounds".
Proof. constructor; reflexivity. Qed.

Lemma SideCrossOrder_walks :
  Walks (fun (_ : MyContainer T) it => SideCrossOrder_order T it)
        "SideCrossOrder dereference out of bounds".
Proof. constructor; reflexivity. Qed.

Lemma MiddleOutOrder_walks :
  Walks (fun (_ : MyContainer T) it => MiddleOutOrder_order T it)
        "MiddleOutOrder dereference out of bounds".
Proof. constructor; reflexivity. Qed.

(** [Order] walks the container's vector as it is when the cursor is
    used. *)
Lemma Order_walks :
  Walks (fun (cont : MyContainer T) (_ : Order) => get_data cont)
        "Order dereference out of bounds".
Proof. constructor; reflexivity. Qed.

(** [ReverseOrder] walks the reversal of the container's vector as it is
    when the cursor is used: [data[size - 1 - pos]] is slot [pos] of the
    reversed vector. *)
Lemma ReverseOrder_walks :
  Walks (fun (cont : MyContainer T) (_ : ReverseOrder) => rev (get_data cont))
        "ReverseOrder dereference out of bounds".
Proof.
  constructor; try reflexivity.
  - intros cont it Hwf Hpos.
    cbn [deref position ReverseOrder_Iterator] in *.
    unfold ReverseOrder_deref. cbv zeta.
    assert (Hsz : vec_size (rev (get_data cont)) = vec_size (get_data cont))
      by (unfold vec_size; now rewrite length_rev).
    rewrite Hsz.
    destruct (vec_size (get_data cont) <=? ReverseOrder_pos it) eqn:E;
      [reflexivity|].
    apply Z.leb_gt in E.
    unfold vector_wf, vector_max_size in Hwf. rewrite Hsz in Hwf.
    rewrite (size_t_wrap_small (vec_size (get_data cont) - 1))
      by (unfold size_t_modulus; lia).
    rewrite size_t_wrap_small by (unfold size_t_modulus; lia).
    set (p := ReverseOrder_pos it) in *.
    set (v := get_data cont) in *.
    assert (Hnth : nth_error (rev v) (Z.to_nat p)
                   = nth_error v (Z.to_nat (vec_size v - 1 - p))).
    { rewrite nth_error_rev.
      assert (Hlt : (Z.to_nat p < length v)%nat)
        by (unfold vec_size in E; lia).
      apply Nat.ltb_lt in Hlt. rewrite Hlt. f_equal.
      unfold vec_size. lia. }
    unfold vec_index. rewrite Hsz, Hnth.
    replace ((0 <=? vec_size v - 1 - p) && (vec_size v - 1 - p <? vec_size v))
      with true by (symmetry; apply andb_true_iff; split;
                    [apply Z.leb_le | apply Z.ltb_lt]; lia).
    replace ((0 <=? p) && (p <? vec_size v))
      with true by (symmetry; apply andb_true_iff; split;
                    [apply Z.leb_le | apply Z.ltb_lt]; lia).
    reflexivity.
  - intros cont it. cbn. unfold vec_size. now rewrite length_rev.
Qed.

(** The iterators that own a copy never read the container again. *)
Lemma for_loop_ignores_container {I : Type} `{Iterator T I}
      (fuel : nat) (cont cont' : MyContainer T) (it last : I) :
  (forall c c' (i : I), deref c i = deref c' i) ->
  for_loop fuel cont it last = for_loop fuel cont' it last.
Proof.
  intros Hderef. revert it.
  induction fuel as [|fuel IH]; intros it; cbn [for_loop]; [reflexivity|].
  destruct (iter_neq it last); [|reflexivity].
  rewrite (Hderef cont cont'). destruct (deref cont' it); cbn [bind]; auto.
  now rewrite IH.
Qed.

Lemma traverse_ignores_container {I : Type} `{Iterator T I}
      (cont cont' : MyContainer T) (view : I) :
  (forall c c' (i : I), deref c i = deref c' i) ->
  (forall c c' (i : I), end_ c i = end_ c' i) ->
  traverse cont view = traverse cont' view.
Proof.
  intros Hderef Hend. unfold traverse. cbv zeta.
  rewrite (Hend cont cont').
  now apply for_loop_ignores_container.
Qed.

End Instances.

(** ** The constructor of SideCrossOrder *)

Section SideCross.
Context {T : Type}.
Variable sorted : list T.
Hypothesis sorted_wf : vector_wf sorted.

Lemma vec_index_nat (v : list T) (i : nat) (x : T) :
  nth_error v i = Some x -> vec_index v (Z.of_nat i) = Ok x.
Proof.
  intros Hnth. apply vec_index_in_range; [|lia]. now rewrite Nat2Z.id.
Qed.

(** Invariant of the loop: [i] elements were taken at each end, [k] are
    unconsumed, [left] is [i] and [right] is [i + k - 1]. *)
Lemma SideCrossOrder_loop_spec (fuel k i : nat) (order : list T) :
  (0 < length sorted)%nat ->
  (2 * i + k = length sorted)%nat ->
  (k + 2 <= 2 * fuel)%nat ->
  SideCrossOrder_loop fuel sorted (Z.of_nat i) (Z.of_nat (i + k) - 1) order
  = Ok (order ++ take_alternately k (skipn i sorted) (skipn i (rev sorted))).
Proof.
  intros Hne. revert k i order.
  unfold vector_wf, vector_max_size, vec_size in sorted_wf.
  induction fuel as [|fuel IH]; intros k i order Hk Hfuel; [lia|].
  cbn [SideCrossOrder_loop].
  destruct k as [|[|k]].
  - (* nothing left: the ends have crossed *)
    replace (Z.of_nat i <=? Z.of_nat (i + 0) - 1) with false
      by (symmetry; apply Z.leb_gt; lia).
    cbn [take_alternately]. now rewrite app_nil_r.
  - (* one element in the middle *)
    replace (Z.of_nat (i + 1) - 1) with (Z.of_nat i) by lia.
    rewrite Z.leb_refl, Z.eqb_refl.
    destruct (nth_error sorted i) as [x|] eqn:Hx.
    2:{ apply nth_error_None in Hx. lia. }
    rewrite (vec_index_nat _ _ _ Hx). cbn [bind].
    rewrite (skipn_nth_error_cons _ _ _ Hx). cbn [take_alternately].
    rewrite (size_t_wrap_small (Z.of_nat i + 1))
      by (unfold size_t_modulus; lia).
    destruct fuel as [|fuel]; [lia|]. cbn [SideCrossOrder_loop].
    destruct (0 <? Z.of_nat i) eqn:E0.
    + apply Z.ltb_lt in E0.
      rewrite size_t_wrap_small by (unfold size_t_modulus; lia).
      replace (Z.of_nat i + 1 <=? Z.of_nat i - 1) with false
        by (symmetry; apply Z.leb_gt; lia).
      reflexivity.
    + replace (Z.of_nat i + 1 <=? Z.of_nat i) with false
        by (symmetry; apply Z.leb_gt; lia).
      reflexivity.
  - (* two or more: take the lowest and the highest *)
    set (r := (i + S (S k) - 1)%nat).
    replace (Z.of_nat (i + S (S k)) - 1) with (Z.of_nat r) by lia.
    replace (Z.of_nat i <=? Z.of_nat r) with true
      by (symmetry; apply Z.leb_le; lia).
    replace (Z.of_nat i =? Z.of_nat r) with false
      by (symmetry; apply Z.eqb_neq; lia).
    destruct (nth_error sorted i) as [x|] eqn:Hx.
    2:{ apply nth_error_None in Hx. lia. }
    destruct (nth_error sorted r) as [y|] eqn:Hy.
    2:{ apply nth_error_None in Hy. lia. }
    rewrite (vec_index_nat _ _ _ Hx), (vec_index_nat _ _ _ Hy). cbn [bind].
    replace (0 <? Z.of_nat r) with true by (symmetry; apply Z.ltb_lt; lia).
    rewrite (size_t_wrap_small (Z.of_nat i + 1))
      by (unfold size_t_modulus; lia).
    rewrite (size_t_wrap_small (Z.of_nat r - 1))
      by (unfold size_t_modulus; lia).
    replace (Z.of_nat i + 1) with (Z.of_nat (S i)) by lia.
    replace (Z.of_nat r - 1) with (Z.of_nat (S i + k) - 1) by lia.
    rewrite IH by lia.
    assert (Hy' : nth_error (rev sorted) i = Some y).
    { rewrite nth_error_rev.
      replace (i <? length sorted)%nat with true
        by (symmetry; apply Nat.ltb_lt; lia).
      rewrite <- Hy. f_equal. lia. }
    rewrite (skipn_nth_error_cons _ _ _ Hx), (skipn_nth_error_cons _ _ _ Hy').
    cbn [take_alternately]. unfold push_back.
    rewrite <- !app_assoc. reflexivity.
Qed.

(** The loop run by the constructor returns, and builds the side-cross
    arrangement of the sorted copy. *)
Lemma SideCrossOrder_loop_total :
  sorted <> [] ->
  SideCrossOrder_loop (S (length sorted)) sorted
    0 (size_t_wrap (vec_size sorted - 1)) []
  = Ok (side_cross_of_sorted sorted).
Proof.
  intros Hne.
  assert (Hlen : (0 < length sorted)%nat)
    by (destruct sorted; [congruence | simpl; lia]).
  pose proof sorted_wf as Hwf.
  unfold vector_wf, vector_max_size, vec_size in Hwf.
  unfold vec_size. rewrite size_t_wrap_small by (unfold size_t_modulus; lia).
  pose proof (SideCrossOrder_loop_spec (S (length sorted)) (length sorted) 0 [])
    as Hloop.
  cbn [Nat.add Z.of_nat skipn app] in Hloop.
  rewrite Hloop by lia. reflexivity.
Qed.

End SideCross.

(** ** The constructor of MiddleOutOrder *)

Section MiddleOut.
Context {T : Type}.
Variable vec : list T.

Lemma static_cast_int_range (z : Z) : INT_MIN <= static_cast_int z <= INT_MAX.
Proof.
  unfold static_cast_int, INT_MIN, INT_MAX.
  pose proof (Z.mod_pos_bound (z + 2 ^ 31) (2 ^ 32)). lia.
Qed.

Lemma alternate_nil_r (l : list T) : alternate l [] = l.
Proof. destruct l; reflexivity. Qed.

Lemma firstn_succ_nth_error (l : list T) (n : nat) (x : T) :
  nth_error l n = Some x -> firstn (S n) l = firstn n l ++ [x].
Proof.
  revert l. induction n as [|n IH]; intros [|y l] Hnth;
    try discriminate; cbn in *.
  - congruence.
  - f_equal. now apply IH.
Qed.

(** Invariant of the loop.  The slots still to be emitted on the left are
    those at indices [left], [left - 1], ..., [0]; on the right they are
    the slots at indices [right], ..., [n - 1], where [n] is the size of
    the vector as the loop sees it, that is after its conversion to
    [int]. *)
Lemma MiddleOutOrder_loop_spec (fuel : nat) (left right : Z) (order : list T) :
  let n := static_cast_int (vec_size vec) in
  -1 <= left < vec_size vec -> left <= INT_MAX ->
  0 <= right -> n <= vec_size vec ->
  (Z.to_nat (left + 1) < fuel)%nat ->
  (Z.to_nat (n - right) < fuel)%nat ->
  MiddleOutOrder_loop fuel vec left right order
  = Ok (order ++
        alternate (rev (firstn (Z.to_nat (left + 1)) vec))
                  (firstn (Z.to_nat (n - right)) (skipn (Z.to_nat right) vec))).
Proof.
  intros n. pose proof (static_cast_int_range (vec_size vec)) as Hn.
  fold n in Hn. revert left right order.
  induction fuel as [|fuel IH];
    intros left right order Hleft Hlmax Hright Hnsz Hfl Hfr; [lia|].
  cbn [MiddleOutOrder_loop]. fold n.
  destruct (0 <=? left) eqn:El; destruct (right <? n) eqn:Er; cbn [orb];
    try apply Z.leb_le in El; try apply Z.leb_gt in El;
    try apply Z.ltb_lt in Er; try apply Z.ltb_ge in Er.
  - (* both sides have a slot *)
    rewrite (int_to_size_t_nonneg left), (int_to_size_t_nonneg right)
      by (unfold INT_MAX in *; lia).
    destruct (nth_error vec (Z.to_nat left)) as [x|] eqn:Hx.
    2:{ apply nth_error_None in Hx. unfold vec_size in *. lia. }
    destruct (nth_error vec (Z.to_nat right)) as [y|] eqn:Hy.
    2:{ apply nth_error_None in Hy. unfold vec_size in *. lia. }
    rewrite (vec_index_in_range _ _ _ Hx), (vec_index_in_range _ _ _ Hy)
      by lia.
    rewrite !int_add_in_range by (unfold INT_MIN, INT_MAX in *; lia).
    cbn [bind]. rewrite IH by (unfold INT_MAX in *; lia).
    replace (Z.to_nat (left + 1)) with (S (Z.to_nat left)) by lia.
    replace (Z.to_nat (left + -1 + 1)) with (Z.to_nat left) by lia.
    replace (Z.to_nat (n - right)) with (S (Z.to_nat (n - (right + 1)))) by lia.
    replace (Z.to_nat (right + 1)) with (S (Z.to_nat right)) by lia.
    rewrite (firstn_succ_nth_error _ _ _ Hx), rev_unit.
    rewrite (skipn_nth_error_cons _ _ _ Hy).
    cbn [firstn alternate]. unfold push_back.
    rewrite <- !app_assoc. reflexivity.
  - (* only the left side has one *)
    rewrite (int_to_size_t_nonneg left) by (unfold INT_MAX in *; lia).
    destruct (nth_error vec (Z.to_nat left)) as [x|] eqn:Hx.
    2:{ apply nth_error_None in Hx. unfold vec_size in *. lia. }
    rewrite (vec_index_in_range _ _ _ Hx) by lia.
    rewrite int_add_in_range by (unfold INT_MIN, INT_MAX in *; lia).
    cbn [bind]. rewrite IH by (unfold INT_MAX in *; lia).
    replace (Z.to_nat (left + 1)) with (S (Z.to_nat left)) by lia.
    replace (Z.to_nat (left + -1 + 1)) with (Z.to_nat left) by lia.
    replace (Z.to_nat (n - right)) with O by lia.
    rewrite (firstn_succ_nth_error _ _ _ Hx), rev_unit.
    cbn [firstn]. rewrite !alternate_nil_r. unfold push_back.
    rewrite <- !app_assoc. reflexivity.
  - (* only the right side has one *)
    rewrite (int_to_size_t_nonneg right) by (unfold INT_MAX in *; lia).
    destruct (nth_error vec (Z.to_nat right)) as [y|] eqn:Hy.
    2:{ apply nth_error_None in Hy. unfold vec_size in *. lia. }
    rewrite (vec_index_in_range _ _ _ Hy) by lia.
    rewrite int_add_in_range by (unfold INT_MIN, INT_MAX in *; lia).
    cbn [bind]. rewrite IH by (unfold INT_MAX in *; lia).
    replace (Z.to_nat (left + 1)) with O by lia.
    replace (Z.to_nat (n - right)) with (S (Z.to_nat (n - (right + 1)))) by lia.
    replace (Z.to_nat (right + 1)) with (S (Z.to_nat right)) by lia.
    rewrite (skipn_nth_error_cons _ _ _ Hy).
    cbn [firstn rev alternate]. unfold push_back.
    rewrite <- !app_assoc. reflexivity.
  - (* both sides are exhausted *)
    replace (Z.to_nat (left + 1)) with O by lia.
    replace (Z.to_nat (n - right)) with O by lia.
    cbn [firstn rev alternate]. now rewrite app_nil_r.
Qed.

(** The constructor on a non-empty vector whose middle index and its
    successor fit in [int]: it returns, having emitted the middle, the
    slots left of it, and of the slots right of it those whose index is
    below the size converted to [int]. *)
Lemma MiddleOutOrder_ctor_spec :
  0 < vec_size vec < 2 ^ 32 - 2 ->
  let mid := vec_size vec / 2 in
  let n := static_cast_int (vec_size vec) in
  exists m,
    nth_error vec (Z.to_nat mid) = Some m /\
    MiddleOutOrder_ctor (mkContainer vec)
    = Ok {| MiddleOutOrder_order :=
              m :: alternate (rev (firstn (Z.to_nat mid) vec))
                     (firstn (Z.to_nat (n - (mid + 1)))
                             (skipn (S (Z.to_nat mid)) vec));
            MiddleOutOrder_pos := 0 |}.
Proof.
  intros Hsz mid n.
  assert (Hmid : 0 <= mid < vec_size vec /\ mid <= INT_MAX - 1).
  { unfold mid, INT_MAX. split; [split|].
    - apply Z.div_pos; lia.
    - apply Z.div_lt; lia.
    - apply Z.lt_succ_r. apply Z.div_lt_upper_bound; lia. }
  destruct (nth_error vec (Z.to_nat mid)) as [m|] eqn:Hm.
  2:{ apply nth_error_None in Hm. unfold vec_size in *. lia. }
  exists m. split; [reflexivity|].
  unfold MiddleOutOrder_ctor, get_data. cbn [data].
  rewrite vec_empty_false by lia. cbv zeta. fold mid.
  rewrite (vec_index_in_range _ _ _ Hm) by lia. cbn [bind].
  rewrite (static_cast_int_small mid) by (unfold INT_MIN, INT_MAX in *; lia).
  rewrite !int_add_in_range by (unfold INT_MIN, INT_MAX in *; lia).
  cbn [bind].
  assert (Hn : n <= vec_size vec).
  { unfold n, static_cast_int.
    destruct (Z_lt_le_dec (vec_size vec) (2 ^ 31)).
    - rewrite Z.mod_small; lia.
    - pose proof (Z.mod_pos_bound (vec_size vec + 2 ^ 31) (2 ^ 32)). lia. }
  pose proof (static_cast_int_range (vec_size vec)) as Hrange. fold n in Hrange.
  rewrite MiddleOutOrder_loop_spec; fold n;
    try (unfold INT_MAX, vec_size in *; lia).
  unfold push_back. cbn [bind app].
  replace (Z.to_nat (mid + -1 + 1)) with (Z.to_nat mid) by lia.
  replace (Z.to_nat (mid + 1)) with (S (Z.to_nat mid)) by lia.
  reflexivity.
Qed.

End MiddleOut.

(** ** Sorting *)

Section SortFacts.
Context {T : Type}.
Variable comp : T -> T -> bool.
Hypothesis comp_swo : strict_weak_order comp.

Lemma swo_asym (x y : T) : comp x y = true -> comp y x = false.
Proof.
  intros Hxy. destruct (comp y x) eqn:Hyx; [|reflexivity].
  pose proof (swo_trans T comp comp_swo x y x Hxy Hyx) as Hxx.
  rewrite (swo_irrefl T comp comp_swo) in Hxx. discriminate.
Qed.

Lemma insert_sorted_perm (x : T) (v : list T) :
  Permutation (insert_sorted comp x v) (x :: v).
Proof.
  induction v as [|y v IH]; cbn [insert_sorted]; [reflexivity|].
  destruct (comp x y); [reflexivity|].
  rewrite IH. apply perm_swap.
Qed.

Lemma insertion_sort_perm (v : list T) : Permutation (insertion_sort comp v) v.
Proof.
  induction v as [|x v IH]; cbn; [reflexivity|].
  fold (insertion_sort comp v). rewrite insert_sorted_perm. now constructor.
Qed.

Lemma insert_sorted_sorted (x : T) (v : list T) :
  sorted_by comp v -> sorted_by comp (insert_sorted comp x v).
Proof.
  unfold sorted_by. induction v as [|y v IH]; intros Hv; cbn [insert_sorted].
  - repeat constructor.
  - inversion Hv as [|? ? Hv' Hy]; subst.
    destruct (comp x y) eqn:Hxy.
    + constructor; [assumption|]. constructor; [now apply swo_asym|].
      rewrite Forall_forall in *. intros z Hz.
      destruct (comp z x) eqn:Hzx; [|reflexivity].
      pose proof (swo_trans T comp comp_swo z x y Hzx Hxy) as Hzy.
      rewrite (Hy z Hz) in Hzy. discriminate.
    + constructor; [now apply IH|].
      rewrite Forall_forall in *. intros z Hz.
      apply (Permutation_in _ (insert_sorted_perm x v)) in Hz.
      destruct Hz as [<-|Hz]; auto.
Qed.

Lemma insertion_sort_sorted (v : list T) : sorted_by comp (insertion_sort comp v).
Proof.
  induction v as [|x v IH]; cbn.
  - constructor.
  - now apply insert_sorted_sorted.
Qed.

End SortFacts.

(** Insertion sort meets the contract of [std::sort]. *)
Lemma insertion_sort_contract (T : Type) : SortContract (@insertion_sort T).
Proof.
  constructor; intros comp v Hswo.
  - apply insertion_sort_perm.
  - now apply insertion_sort_sorted.
Qed.

Lemma Zltb_swo : strict_weak_order Z.ltb.
Proof.
  constructor.
  - intros x. apply Z.ltb_irrefl.
  - intros x y z Hxy Hyz. apply Z.ltb_lt in Hxy, Hyz. apply Z.ltb_lt. lia.
  - intros x y z H1 H2 H3 H4.
    apply Z.ltb_ge in H1, H2, H3, H4. split; apply Z.ltb_ge; lia.
Qed.

Lemma Zgtb_swo : strict_weak_order Z.gtb.
Proof.
  constructor.
  - intros x. rewrite Z.gtb_ltb. apply Z.ltb_irrefl.
  - intros x y z. rewrite !Z.gtb_ltb. intros Hxy Hyz.
    apply Z.ltb_lt in Hxy, Hyz. apply Z.ltb_lt. lia.
  - intros x y z. rewrite !Z.gtb_ltb. intros H1 H2 H3 H4.
    apply Z.ltb_ge in H1, H2, H3, H4. split; apply Z.ltb_ge; lia.
Qed.

(** On the integers a vector has one sorted arrangement only, so any sort
    that meets the contract returns it. *)
Lemma sorted_permutation_unique (v w : list Z) :
  sorted_by Z.ltb v -> sorted_by Z.ltb w -> Permutation v w -> v = w.
Proof.
  unfold sorted_by. revert w.
  induction v as [|x v IH]; intros w Hv Hw Hperm.
  - apply Permutation_nil in Hperm. congruence.
  - destruct w as [|y w].
    + apply Permutation_sym, Permutation_nil in Hperm. discriminate.
    + inversion Hv as [|? ? Hv' Hx]; inversion Hw as [|? ? Hw' Hy]; subst.
      rewrite Forall_forall in Hx, Hy.
      assert (Hxy : x = y).
      { assert (Hin1 : In x (y :: w))
          by (apply (Permutation_in _ Hperm); now left).
        assert (Hin2 : In y (x :: v))
          by (apply (Permutation_in _ (Permutation_sym Hperm)); now left).
        destruct Hin1 as [->|Hin1]; [reflexivity|].
        destruct Hin2 as [->|Hin2]; [reflexivity|].
        apply Hy in Hin1. apply Hx in Hin2.
        apply Z.ltb_ge in Hin1, Hin2. lia. }
      subst y. f_equal. apply IH; try assumption.
      now apply Permutation_cons_inv in Hperm.
Qed.

Lemma sort_of_sorted (std_sort : (Z -> Z -> bool) -> list Z -> list Z) (v : list Z) :
  SortContract std_sort -> sorted_by Z.ltb v -> std_sort Z.ltb v = v.
Proof.
  intros [Hperm Hsorted] Hv. apply sorted_permutation_unique.
  - apply Hsorted, Zltb_swo.
  - assumption.
  - apply Hperm, Zltb_swo.
Qed.

(** ** Sizes of the arrangements *)

Section Sizes.
Context {T : Type}.

Lemma take_alternately_length (n : nat) (asc desc : list T) :
  (length (take_alternately n asc desc) <= n)%nat.
Proof.
  revert asc desc.
  induction n as [n IH] using (well_founded_induction lt_wf).
  intros asc desc. destruct n as [|[|n]]; cbn [take_alternately].
  - cbn. lia.
  - destruct asc; cbn; lia.
  - destruct asc as [|x asc]; [cbn; lia|].
    destruct desc as [|y desc]; [cbn; lia|].
    cbn [length]. specialize (IH n (ltac:(lia)) asc desc). lia.
Qed.

Lemma side_cross_of_sorted_wf (sorted : list T) :
  vector_wf sorted -> vector_wf (side_cross_of_sorted sorted).
Proof.
  unfold vector_wf, vec_size, side_cross_of_sorted.
  pose proof (take_alternately_length (length sorted) sorted (rev sorted)).
  lia.
Qed.

Lemma alternate_length (l r : list T) :
  length (alternate l r) = (length l + length r)%nat.
Proof.
  revert r. induction l as [|x l IH]; intros [|y r]; cbn [alternate length];
    try lia.
  rewrite IH. lia.
Qed.

Lemma middle_out_spec_length (v : list T) :
  length (middle_out_spec v) = length v.
Proof.
  unfold middle_out_spec. cbv zeta.
  destruct (nth_error v (length v / 2)) as [m|] eqn:Hm.
  - assert (Hlt : (length v / 2 < length v)%nat)
      by (apply nth_error_Some; congruence).
    cbn [length].
    rewrite alternate_length, length_rev, length_firstn, length_skipn. lia.
  - apply nth_error_None in Hm. destruct v as [|x v]; [reflexivity|].
    assert (length (x :: v) / 2 < length (x :: v))%nat
      by (apply Nat.div_lt; cbn; lia).
    lia.
Qed.

End Sizes.

(** ** The views of a container *)

Section Views.
Context {T : Type}.
Variables eqb ltb gtb : T -> T -> bool.
Variable std_sort : (T -> T -> bool) -> list T -> list T.
Hypothesis contract : SortContract std_sort.
Hypothesis ltb_swo : strict_weak_order ltb.
Hypothesis gtb_swo : strict_weak_order gtb.

Implicit Types (c cont : MyContainer T) (x : T).

Lemma std_sort_wf comp (v : list T) :
  strict_weak_order comp -> vector_wf v -> vector_wf (std_sort comp v).
Proof.
  intros Hswo. unfold vector_wf, vec_size.
  now rewrite (Permutation_length (sort_permutes T std_sort contract comp v Hswo)).
Qed.

Lemma std_sort_nil comp : strict_weak_order comp -> std_sort comp [] = [].
Proof.
  intros Hswo. apply Permutation_nil, Permutation_sym.
  now apply (sort_permutes T std_sort contract).
Qed.

Lemma std_sort_singleton comp x :
  strict_weak_order comp -> std_sort comp [x] = [x].
Proof.
  intros Hswo. apply Permutation_length_1_inv, Permutation_sym.
  now apply (sort_permutes T std_sort contract).
Qed.

(** The constructor of [SideCrossOrder] returns, with the side-cross
    arrangement of the sorted copy and the cursor at the beginning. *)
Lemma sidecross_order_spec c :
  vector_wf (data c) ->
  sidecross_order ltb std_sort c
  = Ok {| SideCrossOrder_order := side_cross_of_sorted (std_sort ltb (data c));
          SideCrossOrder_pos := 0 |}.
Proof.
  intros Hwf. unfold sidecross_order, SideCrossOrder_ctor, get_data. cbv zeta.
  destruct (vec_empty (std_sort ltb (data c))) eqn:E.
  - apply vec_empty_nil in E. now rewrite E.
  - rewrite SideCrossOrder_loop_total.
    + reflexivity.
    + now apply std_sort_wf.
    + intros Hnil. apply vec_empty_nil in Hnil. congruence.
Qed.

Lemma sidecross_traverse c cont :
  vector_wf (data c) ->
  exists v,
    sidecross_order ltb std_sort c = Ok v /\
    traverse cont v = Ok (side_cross_of_sorted (std_sort ltb (data c))).
Proof.
  intros Hwf. eexists. split; [now apply sidecross_order_spec|].
  rewrite (traverse_walks _ _ SideCrossOrder_walks); [reflexivity| |reflexivity].
  cbn. now apply side_cross_of_sorted_wf, std_sort_wf.
Qed.

(** The constructor of [MiddleOutOrder] on a container whose size fits in
    [int]. *)
Lemma middle_out_order_spec c :
  size c <= INT_MAX ->
  middle_out_order c
  = Ok {| MiddleOutOrder_order := middle_out_spec (data c);
          MiddleOutOrder_pos := 0 |}.
Proof.
  destruct c as [v]. unfold size, middle_out_order. cbn [data]. intros Hsz.
  destruct v as [|x0 v0] eqn:Hv; [reflexivity|]. rewrite <- Hv in *.
  assert (Hpos : 0 < vec_size v) by (subst v; rewrite vec_size_cons;
                                     pose proof (vec_size_nonneg v0); lia).
  clear Hv x0 v0.
  destruct (MiddleOutOrder_ctor_spec v) as [m [Hm Hctor]];
    [unfold INT_MAX in Hsz; lia|].
  rewrite Hctor. unfold middle_out_spec. cbv zeta.
  assert (Hmid : Z.to_nat (vec_size v / 2) = (length v / 2)%nat).
  { unfold vec_size. change 2 with (Z.of_nat 2).
    now rewrite <- Nat2Z.inj_div, Nat2Z.id. }
  rewrite Hmid in *. rewrite Hm.
  rewrite static_cast_int_small
    by (unfold INT_MIN; pose proof (vec_size_nonneg v); lia).
  assert (Hrest : firstn (Z.to_nat (vec_size v - (vec_size v / 2 + 1)))
                         (skipn (S (length v / 2)) v)
                  = skipn (S (length v / 2)) v).
  { apply firstn_all2. rewrite length_skipn.
    assert (Hdiv : 0 <= vec_size v / 2) by (apply Z.div_pos; lia).
    unfold vec_size in *. lia. }
  now rewrite Hrest.
Qed.

Lemma middle_out_traverse c cont :
  size c <= INT_MAX ->
  exists v,
    middle_out_order c = Ok v /\
    traverse cont v = Ok (middle_out_spec (data c)).
Proof.
  intros Hsz. eexists. split; [now apply middle_out_order_spec|].
  rewrite (traverse_walks _ _ MiddleOutOrder_walks); [reflexivity| |reflexivity].
  cbn. unfold vector_wf, vector_max_size, vec_size, size, INT_MAX in *.
  rewrite middle_out_spec_length. unfold vec_size in Hsz. lia.
Qed.

Lemma ascending_traverse c cont :
  vector_wf (data c) ->
  traverse cont (ascending_order ltb std_sort c) = Ok (std_sort ltb (data c)).
Proof.
  intros Hwf.
  rewrite (traverse_walks _ _ AscendingOrder_walks); [reflexivity| |reflexivity].
  cbn. now apply std_sort_wf.
Qed.

Lemma descending_traverse c cont :
  vector_wf (data c) ->
  traverse cont (descending_order gtb std_sort c) = Ok (std_sort gtb (data c)).
Proof.
  intros Hwf.
  rewrite (traverse_walks _ _ DescendingOrder_walks); [reflexivity| |reflexivity].
  cbn. now apply std_sort_wf.
Qed.

(** [Order] and [ReverseOrder] yield what the container holds when the
    traversal runs. *)
Lemma order_traverse c cont :
  vector_wf (data cont) -> traverse cont (order c) = Ok (data cont).
Proof.
  intros Hwf.
  now rewrite (traverse_walks _ _ Order_walks).
Qed.

Lemma reverse_traverse c cont :
  vector_wf (data cont) -> traverse cont (reverse_order c) = Ok (rev (data cont)).
Proof.
  intros Hwf.
  rewrite (traverse_walks _ _ ReverseOrder_walks); [reflexivity| |reflexivity].
  unfold vector_wf, vec_size, get_data in *. now rewrite length_rev.
Qed.

End Views.

(** ** Advancing a cursor *)

Section Advance.
Context {T I : Type} `{Iterator T I}.
Variable elems : MyContainer T -> I -> list T.
Variable what : string.
Hypothesis walks : Walks elems what.

Lemma walks_advances_by_one : advances_by_one elems what.
Proof.
  intros cont it. split; [apply (walks_incr_position walks)|].
  intros Hwf Hpos.
  assert (Hnext : position (incr it) = position it + 1).
  { rewrite (walks_incr_position walks). apply size_t_wrap_small.
    unfold vector_wf, vector_max_size, size_t_modulus in *. lia. }
  split; [assumption|]. intros Hend. split.
  - unfold iter_eq. rewrite Hnext, (walks_end_position walks).
    apply Z.eqb_neq. lia.
  - rewrite (walks_deref walks); rewrite ?(walks_incr_elems walks);
      try assumption; try lia.
    rewrite Hnext.
    replace (vec_size (elems cont it) <=? position it + 1) with true
      by (symmetry; apply Z.leb_le; lia).
    reflexivity.
Qed.
End Advance.

(** * The behaviour of the container *)

Section Claims.
Context {T : Type}.
Variables eqb ltb gtb : T -> T -> bool.
Variable std_sort : (T -> T -> bool) -> list T -> list T.
Variable moved_from : T -> T.
Hypothesis contract : SortContract std_sort.
Hypothesis ltb_swo : strict_weak_order ltb.
Hypothesis gtb_swo : strict_weak_order gtb.

Implicit Types (c : MyContainer T) (x : T).

(** C1, as the code has it: the four views that own a copy (ascending,
    descending, side-cross, middle-out) yield on a full traversal the
    sequence fixed when they were created, whatever [add]s and [remove]s
    are applied to the container afterwards; the insertion-order and the
    reverse view own no copy, and their full traversal yields what the
    container holds when the traversal runs (read backward for the
    reverse view). *)
Theorem views_after_mutations c (ms : list (mutation T))
        (vs : SideCrossOrder T) (vm : MiddleOutOrder T) :
  let c' := apply_mutations eqb moved_from ms c in
  sidecross_order ltb std_sort c = Ok vs ->
  middle_out_order c = Ok vm ->
  vector_wf (data c') ->
  traverse c' (ascending_order ltb std_sort c)
    = traverse c (ascending_order ltb std_sort c) /\
  traverse c' (descending_order gtb std_sort c)
    = traverse c (descending_order gtb std_sort c) /\
  traverse c' vs = traverse c vs /\
  traverse c' vm = traverse c vm /\
  traverse c' (order c) = Ok (data c') /\
  traverse c' (reverse_order c) = Ok (rev (data c')).
Proof.
  intros c' _ _ Hwf.
  repeat apply conj;
    try (apply traverse_ignores_container; reflexivity).
  - now apply order_traverse.
  - now apply reverse_traverse.
Qed.

(** C3, as the code has it: [operator++] has no guard at the end.  In
    each of the six classes it adds one to the position (modulo [2^64]);
    on a cursor before the end this is the next slot, and a cursor that
    was at the end is afterwards one past the end: it no longer equals
    [end()] and dereferencing it throws [out_of_range]. *)
Theorem increment_has_no_end_guard :
  advances_by_one (fun (_ : MyContainer T) it => AscendingOrder_sorted T it)
                  "AscendingOrder dereference out of bounds" /\
  advances_by_one (fun (_ : MyContainer T) it => DescendingOrder_sorted T it)
                  "DescendingOrder dereference out of bounds" /\
  advances_by_one (fun (_ : MyContainer T) it => SideCrossOrder_order T it)
                  "SideCrossOrder dereference out of bounds" /\
  advances_by_one (fun (cont : MyContainer T) (_ : ReverseOrder) => rev (get_data cont))
                  "ReverseOrder dereference out of bounds" /\
  advances_by_one (fun (cont : MyContainer T) (_ : Order) => get_data cont)
                  "Order dereference out of bounds" /\
  advances_by_one (fun (_ : MyContainer T) it => MiddleOutOrder_order T it)
                  "MiddleOutOrder dereference out of bounds".
Proof.
  repeat apply conj; apply walks_advances_by_one.
  - apply AscendingOrder_walks.
  - apply DescendingOrder_walks.
  - apply SideCrossOrder_walks.
  - apply ReverseOrder_walks.
  - apply Order_walks.
  - apply MiddleOutOrder_walks.
Qed.

(** C6: a full traversal of the ascending view returns; what it yields
    is sorted with respect to [operator<] (no element is smaller than an
    earlier one) and is a permutation of the container's vector. *)
Theorem ascending_sorted_permutation c :
  vector_wf (data c) ->
  exists out,
    traverse c (ascending_order ltb std_sort c) = Ok out /\
    sorted_by ltb out /\
    Permutation out (data c).
Proof.
  intros Hwf. exists (std_sort ltb (data c)). split; [|split].
  - now apply ascending_traverse.
  - now apply (sort_sorts T std_sort contract).
  - now apply (sort_permutes T std_sort contract).
Qed.

(** C7: a full traversal of the reverse view yields the full traversal
    of the insertion-order view read backward: its element [i] is element
    [size - 1 - i] of the insertion-order traversal. *)
Theorem reverse_is_order_backward c :
  vector_wf (data c) ->
  exists out rout,
    traverse c (order c) = Ok out /\
    traverse c (reverse_order c) = Ok rout /\
    rout = rev out /\
    (forall i, (i < length out)%nat ->
               nth_error rout i = nth_error out (length out - 1 - i)).
Proof.
  intros Hwf. exists (data c), (rev (data c)). repeat apply conj.
  - now apply order_traverse.
  - now apply reverse_traverse.
  - reflexivity.
  - intros i Hi. rewrite nth_error_rev.
    apply Nat.ltb_lt in Hi. rewrite Hi. f_equal. lia.
Qed.

(** C8: on the empty container the four stored sequences are empty, all
    six constructors return, and for each of the six views [begin()]
    equals [end()]; on a container holding the single element [x] the
    full traversal of each of the six views yields [x] alone. *)
Theorem empty_and_singleton_views :
  (let c := @empty_container T in
   (AscendingOrder_sorted T (ascending_order ltb std_sort c) = [] /\
    iter_eq (begin_ (ascending_order ltb std_sort c))
            (end_ c (ascending_order ltb std_sort c)) = true) /\
   (DescendingOrder_sorted T (descending_order gtb std_sort c) = [] /\
    iter_eq (begin_ (descending_order gtb std_sort c))
            (end_ c (descending_order gtb std_sort c)) = true) /\
   (exists v, sidecross_order ltb std_sort c = Ok v /\
              SideCrossOrder_order T v = [] /\
              iter_eq (begin_ v) (end_ c v) = true) /\
   iter_eq (T:=T) (begin_ (T:=T) (reverse_order c)) (end_ c (reverse_order c)) = true /\
   iter_eq (T:=T) (begin_ (T:=T) (order c)) (end_ c (order c)) = true /\
   (exists v, middle_out_order c = Ok v /\
              MiddleOutOrder_order T v = [] /\
              iter_eq (begin_ v) (end_ c v) = true))
  /\
  (forall x,
     let c := add x empty_container in
     traverse c (ascending_order ltb std_sort c) = Ok [x] /\
     traverse c (descending_order gtb std_sort c) = Ok [x] /\
     (exists v, sidecross_order ltb std_sort c = Ok v /\ traverse c v = Ok [x]) /\
     traverse c (reverse_order c) = Ok [x] /\
     traverse c (order c) = Ok [x] /\
     (exists v, middle_out_order c = Ok v /\ traverse c v = Ok [x])).
Proof.
  pose proof (std_sort_nil std_sort contract ltb ltb_swo) as Hnil_lt.
  pose proof (std_sort_nil std_sort contract gtb gtb_swo) as Hnil_gt.
  split.
  - cbv zeta.
    unfold ascending_order, descending_order, sidecross_order,
      AscendingOrder_ctor, DescendingOrder_ctor, SideCrossOrder_ctor.
    cbn [get_data data empty_container]. rewrite Hnil_lt, Hnil_gt.
    repeat apply conj; try reflexivity.
    + eexists. repeat apply conj; reflexivity.
    + eexists. repeat apply conj; reflexivity.
  - intros x c.
    assert (Hwf : vector_wf (data c)) by (cbn; unfold vector_wf; cbn; lia).
    assert (Hdata : data c = [x]) by reflexivity.
    repeat apply conj.
    + rewrite (ascending_traverse ltb std_sort contract ltb_swo c c Hwf).
      rewrite Hdata. f_equal. now apply std_sort_singleton.
    + rewrite (descending_traverse gtb std_sort contract gtb_swo c c Hwf).
      rewrite Hdata. f_equal. now apply std_sort_singleton.
    + destruct (sidecross_traverse ltb std_sort contract ltb_swo c c Hwf)
        as [v [Hv Ht]].
      exists v. split; [assumption|]. rewrite Ht, Hdata.
      rewrite std_sort_singleton by assumption. reflexivity.
    + now rewrite (reverse_traverse c c Hwf).
    + now rewrite (order_traverse c c Hwf).
    + destruct (middle_out_traverse c c) as [v [Hv Ht]];
        [cbn; unfold INT_MAX; lia|].
      exists v. split; [assumption|]. now rewrite Ht.
Qed.

End Claims.

(** ** Side-cross and middle-out *)

(** The side-cross arrangement emits every element of the sorted copy
    exactly once. *)
Lemma take_alternately_permutation (T : Type) (mid a b : list T) :
  Permutation (take_alternately (length mid) (mid ++ a) (rev mid ++ b)) mid.
Proof.
  remember (length mid) as n eqn:Hn. revert mid a b Hn.
  induction n as [n IH] using (well_founded_induction lt_wf).
  intros mid a b Hn. destruct n as [|[|n]]; cbn [take_alternately].
  - destruct mid; [reflexivity | discriminate].
  - destruct mid as [|x [|? ?]]; try discriminate. reflexivity.
  - destruct mid as [|x mid]; [discriminate|].
    destruct (rev mid) as [|y rmid] eqn:Hrev.
    { apply (f_equal (@rev T)) in Hrev. rewrite rev_involutive in Hrev.
      subst mid. discriminate. }
    assert (Hmid : mid = rev rmid ++ [y]).
    { apply (f_equal (@rev T)) in Hrev. now rewrite rev_involutive in Hrev. }
    subst mid. cbn [app rev]. rewrite Hrev. cbn [app].
    rewrite <- !app_assoc.
    rewrite <- (rev_involutive rmid) at 2.
    cbn [length] in Hn. rewrite length_app in Hn. cbn [length] in Hn.
    rewrite (IH n (ltac:(lia)) (rev rmid) ([y] ++ a) ([x] ++ b) (ltac:(lia))).
    rewrite (Permutation_app_comm (rev rmid) [y]). reflexivity.
Qed.

Lemma side_cross_of_sorted_permutation (T : Type) (sorted : list T) :
  Permutation (side_cross_of_sorted sorted) sorted.
Proof.
  unfold side_cross_of_sorted.
  pose proof (take_alternately_permutation T sorted [] []) as Hperm.
  now rewrite !app_nil_r in Hperm.
Qed.

(** C4: the side-cross view sorts a copy of the container's vector
    ascending and emits alternately the lowest and the highest element not
    yet emitted, moving inward, the middle of an odd number of elements
    once; on a container holding 1, 3, 5, 7, 9 a full traversal yields
    1, 9, 3, 7, 5. *)
Theorem sidecross_alternates_ends :
  (forall (T : Type) (ltb : T -> T -> bool)
          (std_sort : (T -> T -> bool) -> list T -> list T) (c : MyContainer T),
      SortContract std_sort -> strict_weak_order ltb -> vector_wf (data c) ->
      exists sorted v,
        Permutation sorted (data c) /\ sorted_by ltb sorted /\
        sidecross_order ltb std_sort c = Ok v /\
        SideCrossOrder_order T v = side_cross_of_sorted sorted /\
        traverse c v = Ok (side_cross_of_sorted sorted))
  /\
  (forall std_sort : (Z -> Z -> bool) -> list Z -> list Z,
      SortContract std_sort ->
      exists v,
        sidecross_order Z.ltb std_sort (int_store [1; 3; 5; 7; 9]) = Ok v /\
        traverse (int_store [1; 3; 5; 7; 9]) v = Ok [1; 9; 3; 7; 5]).
Proof.
  split.
  - intros T ltb std_sort c Hcontract Hswo Hwf.
    exists (std_sort ltb (data c)).
    destruct (sidecross_traverse ltb std_sort Hcontract Hswo c c Hwf)
      as [v [Hv Ht]].
    exists v. repeat apply conj; try assumption.
    + now apply (sort_permutes T std_sort Hcontract).
    + now apply (sort_sorts T std_sort Hcontract).
    + rewrite sidecross_order_spec in Hv by assumption.
      now injection Hv as <-.
  - intros std_sort Hcontract.
    set (c := int_store [1; 3; 5; 7; 9]).
    assert (Hwf : vector_wf (data c)) by (unfold vector_wf; cbn; lia).
    destruct (sidecross_traverse Z.ltb std_sort Hcontract Zltb_swo c c Hwf)
      as [v [Hv Ht]].
    exists v. split; [assumption|]. rewrite Ht.
    rewrite (sort_of_sorted std_sort (data c) Hcontract); [reflexivity|].
    unfold sorted_by. cbn. repeat constructor.
Qed.

(** X19: on a non-empty container whose size fits in
    [int] (at most [2^31 - 1] elements) the middle-out view first emits the
    element at index [size / 2], then alternately the next element to its
    left and the next to its right until both sides are exhausted, an
    exhausted side being skipped; on 1, 2, 3, 4, 5 a full traversal yields
    3, 2, 4, 1, 5 and on 10, 20, 30, 40 it yields 30, 20, 40, 10. *)
Theorem middle_out_from_center :
  (forall (T : Type) (c : MyContainer T),
      0 < size c <= INT_MAX ->
      exists v,
        middle_out_order c = Ok v /\
        MiddleOutOrder_order T v = middle_out_spec (data c) /\
        traverse c v = Ok (middle_out_spec (data c)))
  /\
  (exists v,
      middle_out_order (int_store [1; 2; 3; 4; 5]) = Ok v /\
      traverse (int_store [1; 2; 3; 4; 5]) v = Ok [3; 2; 4; 1; 5])
  /\
  (exists v,
      middle_out_order (int_store [10; 20; 30; 40]) = Ok v /\
      traverse (int_store [10; 20; 30; 40]) v = Ok [30; 20; 40; 10]).
Proof.
  assert (Hgen : forall (T : Type) (c : MyContainer T),
             0 < size c <= INT_MAX ->
             exists v,
               middle_out_order c = Ok v /\
               MiddleOutOrder_order T v = middle_out_spec (data c) /\
               traverse c v = Ok (middle_out_spec (data c))).
  { intros T c [_ Hsz].
    destruct (middle_out_traverse c c Hsz) as [v [Hv Ht]].
    exists v. repeat apply conj; try assumption.
    rewrite middle_out_order_spec in Hv by assumption.
    now injection Hv as <-. }
  split; [exact Hgen|]. split.
  - destruct (Hgen Z (int_store [1; 2; 3; 4; 5])) as [v (Hv & _ & Ht)];
      [unfold INT_MAX; cbn; lia|].
    exists v. split; assumption.
  - destruct (Hgen Z (int_store [10; 20; 30; 40])) as [v (Hv & _ & Ht)];
      [unfold INT_MAX; cbn; lia|].
    exists v. split; assumption.
Qed.

(** ** Where the code departs from a snapshot view, a guarded advance, a
    size-independent middle-out, a removal of all occurrences and a
    resetting [begin()] *)

(** C1 fails for the insertion-order view: the view is created over a
    container holding 1; after [add(2)] its full traversal yields 1, 2,
    not the 1 it would have yielded without the mutation. *)
Lemma order_view_observes_later_add :
  let c := int_store [1] in
  let v := order c in
  let c' := apply_mutations Z.eqb int_moved_from [Add 2] c in
  traverse c v = Ok [1] /\
  traverse c' v = Ok [1; 2] /\
  traverse c' v <> traverse c v.
Proof.
  cbv zeta. repeat apply conj; try reflexivity.
  vm_compute. discriminate.
Qed.

(** C3 fails at the end: over the empty container the end cursor of the
    ascending view, advanced once, is at position 1 and no longer equals
    the end cursor. *)
Lemma increment_at_end_leaves_end :
  let c := int_store [] in
  let e := end_ c (int_ascending c) in
  position e = 0 /\
  position (incr e) = 1 /\
  iter_eq (incr e) e = false.
Proof. cbv zeta. repeat apply conj; reflexivity. Qed.

Lemma huge_store_size : vec_size (data huge_store) = 2 ^ 31.
Proof.
  unfold huge_store, vec_size. cbn [data].
  rewrite repeat_length. apply Z2Nat.id. lia.
Qed.

(** On a vector of exactly [2^31] elements the size converted to [int] is
    negative, the right side is never entered, and the constructor emits
    the middle and the left side only. *)
Lemma middle_out_at_two_to_31 (T : Type) (c : MyContainer T) :
  vec_size (data c) = 2 ^ 31 ->
  exists view,
    middle_out_order c = Ok view /\
    vec_size (MiddleOutOrder_order T view) = 2 ^ 30 + 1 /\
    MiddleOutOrder_order T view <> middle_out_spec (data c).
Proof.
  destruct c as [v]. cbn [data]. intros Hsz.
  destruct (MiddleOutOrder_ctor_spec v) as [m [Hm Hctor]]; [lia|].
  rewrite Hsz in Hctor, Hm.
  change (2 ^ 31 / 2) with (2 ^ 30) in Hctor, Hm.
  change (static_cast_int (2 ^ 31)) with (- 2 ^ 31) in Hctor.
  replace (Z.to_nat (- 2 ^ 31 - (2 ^ 30 + 1))) with O in Hctor by lia.
  cbn [firstn] in Hctor. rewrite alternate_nil_r in Hctor.
  eexists. split; [exact Hctor|].
  cbn [MiddleOutOrder_order].
  assert (Hlen : vec_size (m :: rev (firstn (Z.to_nat (2 ^ 30)) v)) = 2 ^ 30 + 1).
  { rewrite vec_size_cons. unfold vec_size in *.
    rewrite length_rev, length_firstn. lia. }
  split; [exact Hlen|].
  intros Heq. rewrite Heq in Hlen. unfold vec_size in Hlen, Hsz.
  rewrite middle_out_spec_length in Hlen. lia.
Qed.

(** C5 fails beyond [INT_MAX]: for the container of [2^31] elements the
    middle-out view holds [2^30 + 1] elements, not the [2^31] of the
    arrangement the claim describes. *)
Lemma middle_out_beyond_int_max :
  exists view,
    middle_out_order huge_store = Ok view /\
    vec_size (MiddleOutOrder_order Z view) = 2 ^ 30 + 1 /\
    MiddleOutOrder_order Z view <> middle_out_spec (data huge_store).
Proof. exact (middle_out_at_two_to_31 Z huge_store huge_store_size). Qed.

(** C2 fails when [remove] is handed a reference to a slot of the
    container itself, as in [c.remove(c[0])].  On 1, 2, 2 one slot equals
    the value, yet the call leaves 2 alone: the size drops by two and a
    slot that differed from the value is gone.  On 1, 2, 1 the call
    leaves 2, 1: a slot equal to the value remains.  The loop of
    [std::remove] overwrites slot 0 with the 2 and from then on compares
    against that 2. *)
Theorem remove_through_own_slot :
  read [1; 2; 2] (Slot 0) = Ok 1 /\
  occurrences Z.eqb [1; 2; 2] 1 = 1 /\
  remove Z.eqb int_moved_from (Slot 0) (int_store [1; 2; 2])
  = (Ok tt, int_store [2]) /\
  occurrences Z.eqb [1; 2; 1] 1 = 2 /\
  remove Z.eqb int_moved_from (Slot 0) (int_store [1; 2; 1])
  = (Ok tt, int_store [2; 1]).
Proof. repeat apply conj; reflexivity. Qed.

(** C9 fails on an advanced view: over a container holding 1, 2 the
    ascending view advanced once has position 1, and [begin()], which
    returns a copy of the view, is at position 1 as well, not at 0; the
    element under that cursor is 2.  After [n] advances [begin()] is at
    position [n] (modulo [2^64]). *)
Theorem begin_keeps_advanced_position :
  let c := int_store [1; 2] in
  let v := incr (int_ascending c) in
  position (begin_ v) = 1 /\
  deref c (begin_ v) = Ok 2 /\
  (forall n : nat,
      position (begin_ (advance n (int_ascending c))) = size_t_wrap (Z.of_nat n)).
Proof.
  cbv zeta. repeat apply conj; try reflexivity.
  intros n. rewrite (walks_begin AscendingOrder_walks).
  rewrite (advance_position _ _ AscendingOrder_walks).
  - reflexivity.
  - unfold size_t_modulus. cbn. lia.
Qed.

(** ** The statements at concrete containers *)

Ltac solve_wf := unfold vector_wf, vector_max_size; cbn; lia.

Lemma views_after_mutations_witness :
  let c := int_store [3; 1; 2] in
  let c' := apply_mutations Z.eqb int_moved_from [Add 5; Remove (External 1)] c in
  vector_wf (data c') /\
  traverse c' (int_ascending c) = traverse c (int_ascending c) /\
  traverse c' (order c) = Ok [3; 2; 5].
Proof.
  cbv zeta.
  pose proof (views_after_mutations Z.eqb Z.ltb Z.gtb insertion_sort
                int_moved_from
                (int_store [3; 1; 2]) [Add 5; Remove (External 1)]
                {| SideCrossOrder_order := [1; 3; 2]; SideCrossOrder_pos := 0 |}
                {| MiddleOutOrder_order := [1; 3; 2]; MiddleOutOrder_pos := 0 |}
                eq_refl eq_refl ltac:(solve_wf))
    as (Hasc & _ & _ & _ & Hord & _).
  split; [solve_wf|]. split; [exact Hasc | exact Hord].
Defined.

Lemma remove_all_occurrences_witness :
  1 <= occurrences Z.eqb [1; 2; 1] 1 /\
  exists c',
    remove Z.eqb int_moved_from (External 1) (int_store [1; 2; 1]) = (Ok tt, c') /\
    size c' = size (int_store [1; 2; 1]) - occurrences Z.eqb [1; 2; 1] 1 /\
    Forall (fun x => Z.eqb x 1 = false) (data c') /\
    survivors Z.eqb 1 [1; 2; 1] (data c').
Proof.
  assert (Hk : 1 <= occurrences Z.eqb [1; 2; 1] 1) by (cbn; lia).
  split; [exact Hk|].
  exact (proj1 (remove_all_occurrences Z.eqb int_moved_from 1
                  (int_store [1; 2; 1])) Hk).
Defined.

Lemma remove_failure_keeps_store_witness :
  read [1; 2; 1] (External 3) = Ok 3 /\
  occurrences Z.eqb [1; 2; 1] 3 = 0 /\
  remove Z.eqb int_moved_from (External 3) (int_store [1; 2; 1])
  = (Throw (runtime_error "Element not found"), int_store [1; 2; 1]).
Proof.
  split; [reflexivity|]. split; [reflexivity|].
  apply (remove_failure_keeps_store Z.eqb int_moved_from (External 3) 3
           (int_store [1; 2; 1])); reflexivity.
Defined.

Lemma increment_has_no_end_guard_witness :
  let c := int_store [4; 8] in
  let e := end_ c (int_ascending c) in
  vector_wf (AscendingOrder_sorted Z e) /\
  position (incr e) = position e + 1 /\
  iter_eq (incr e) (end_ c e) = false /\
  deref c (incr e)
  = Throw (out_of_range "AscendingOrder dereference out of bounds").
Proof.
  cbv zeta.
  set (c := int_store [4; 8]). set (e := end_ c (int_ascending c)).
  assert (Hwf : vector_wf (AscendingOrder_sorted Z e)) by solve_wf.
  destruct (proj1 (@increment_has_no_end_guard Z) c e) as [_ Hadv].
  destruct (Hadv Hwf ltac:(cbn; lia)) as [Hnext Hend].
  destruct (Hend eq_refl) as [Hneq Hthrow].
  repeat apply conj; assumption.
Defined.

Lemma sidecross_alternates_ends_witness :
  SortContract (@insertion_sort Z) /\ strict_weak_order Z.ltb /\
  vector_wf (data (int_store [7; 15; 6; 1; 2])) /\
  (exists sorted v,
      Permutation sorted [7; 15; 6; 1; 2] /\ sorted_by Z.ltb sorted /\
      int_sidecross (int_store [7; 15; 6; 1; 2]) = Ok v /\
      SideCrossOrder_order Z v = side_cross_of_sorted sorted /\
      traverse (int_store [7; 15; 6; 1; 2]) v = Ok (side_cross_of_sorted sorted)) /\
  (exists v,
      int_sidecross (int_store [1; 3; 5; 7; 9]) = Ok v /\
      traverse (int_store [1; 3; 5; 7; 9]) v = Ok [1; 9; 3; 7; 5]).
Proof.
  assert (Hwf : vector_wf (data (int_store [7; 15; 6; 1; 2]))) by solve_wf.
  repeat apply conj.
  - apply insertion_sort_contract.
  - apply Zltb_swo.
  - exact Hwf.
  - exact (proj1 sidecross_alternates_ends Z Z.ltb insertion_sort
             (int_store [7; 15; 6; 1; 2])
             (insertion_sort_contract Z) Zltb_swo Hwf).
  - exact (proj2 sidecross_alternates_ends insertion_sort
             (insertion_sort_contract Z)).
Defined.

Lemma middle_out_from_center_witness :
  0 < size (int_store [7; 15; 6; 1; 2]) <= INT_MAX /\
  exists v,
    middle_out_order (int_store [7; 15; 6; 1; 2]) = Ok v /\
    MiddleOutOrder_order Z v = [6; 15; 1; 7; 2] /\
    traverse (int_store [7; 15; 6; 1; 2]) v = Ok [6; 15; 1; 7; 2].
Proof.
  assert (Hsz : 0 < size (int_store [7; 15; 6; 1; 2]) <= INT_MAX)
    by (unfold INT_MAX; cbn; lia).
  split; [exact Hsz|].
  exact (proj1 middle_out_from_center Z (int_store [7; 15; 6; 1; 2]) Hsz).
Defined.

Lemma ascending_sorted_permutation_witness :
  SortContract (@insertion_sort Z) /\ strict_weak_order Z.ltb /\
  vector_wf (data (int_store [7; 15; 6; 1; 2])) /\
  exists out,
    traverse (int_store [7; 15; 6; 1; 2]) (int_ascending (int_store [7; 15; 6; 1; 2]))
      = Ok out /\
    sorted_by Z.ltb out /\
    Permutation out [7; 15; 6; 1; 2].
Proof.
  assert (Hwf : vector_wf (data (int_store [7; 15; 6; 1; 2]))) by solve_wf.
  repeat apply conj.
  - apply insertion_sort_contract.
  - apply Zltb_swo.
  - exact Hwf.
  - exact (ascending_sorted_permutation Z.ltb insertion_sort
             (insertion_sort_contract Z) Zltb_swo
             (int_store [7; 15; 6; 1; 2]) Hwf).
Defined.

Lemma reverse_is_order_backward_witness :
  vector_wf (data (int_store [10; 20; 30])) /\
  exists out rout,
    traverse (int_store [10; 20; 30]) (order (int_store [10; 20; 30])) = Ok out /\
    traverse (int_store [10; 20; 30]) (reverse_order (int_store [10; 20; 30]))
      = Ok rout /\
    rout = rev out /\
    (forall i, (i < length out)%nat ->
               nth_error rout i = nth_error out (length out - 1 - i)).
Proof.
  assert (Hwf : vector_wf (data (int_store [10; 20; 30]))) by solve_wf.
  split; [exact Hwf|].
  exact (reverse_is_order_backward (int_store [10; 20; 30]) Hwf).
Defined.

Lemma empty_and_singleton_views_witness :
  SortContract (@insertion_sort Z) /\ strict_weak_order Z.ltb /\
  strict_weak_order Z.gtb /\
  let c := add 42 empty_container in
  traverse c (int_ascending c) = Ok [42] /\
  traverse c (int_descending c) = Ok [42] /\
  (exists v, int_sidecross c = Ok v /\ traverse c v = Ok [42]) /\
  traverse c (reverse_order c) = Ok [42] /\
  traverse c (order c) = Ok [42] /\
  (exists v, middle_out_order c = Ok v /\ traverse c v = Ok [42]).
Proof.
  split; [apply insertion_sort_contract|].
  split; [apply Zltb_swo|]. split; [apply Zgtb_swo|].
  exact (proj2 (empty_and_singleton_views Z.ltb Z.gtb insertion_sort
                  (insertion_sort_contract Z) Zltb_swo Zgtb_swo) 42).
Defined.

(** * Further behaviour of the container *)

(** ** Adding, indexing and removing *)

Section StoreFacts.
Context {T : Type} (eqb : T -> T -> bool) (moved_from : T -> T).
Implicit Types (c : MyContainer T) (value : T).

Lemma container_eta c : mkContainer (data c) = c.
Proof. now destruct c. Qed.

Lemma vec_at_in_range (v : list T) (i : Z) (x : T) :
  nth_error v (Z.to_nat i) = Some x -> 0 <= i -> vec_at v i = Ok x.
Proof.
  intros Hnth Hi. unfold vec_at.
  assert (Hlt : (Z.to_nat i < length v)%nat)
    by (apply nth_error_Some; congruence).
  replace (vec_size v <=? i) with false
    by (symmetry; apply Z.leb_gt; unfold vec_size; lia).
  now apply vec_index_in_range.
Qed.

(** X1: [add] appends: the size grows by one, the new value is the last slot,
    and every slot that was there is still at its index. *)
Theorem add_appends value c :
  size (add value c) = size c + 1 /\
  at_ (add value c) (size c) = Ok value /\
  (forall i, 0 <= i < size c -> at_ (add value c) i = at_ c i).
Proof.
  unfold size, at_, add, push_back. cbn [data]. repeat apply conj.
  - rewrite vec_size_app. reflexivity.
  - apply vec_at_in_range; [|apply vec_size_nonneg].
    unfold vec_size. rewrite Nat2Z.id, nth_error_app2, Nat.sub_diag by lia.
    reflexivity.
  - intros i Hi. unfold vec_size in Hi.
    destruct (nth_error (data c) (Z.to_nat i)) as [x|] eqn:Hx.
    2:{ apply nth_error_None in Hx. lia. }
    rewrite (vec_at_in_range (data c) i x Hx) by lia.
    apply vec_at_in_range; [|lia].
    rewrite nth_error_app1 by lia. exact Hx.
Qed.

(** X2: [at] is checked and [operator[]] is not: below the size both return
    the slot at the index; from the size on [at] throws [out_of_range]
    and [operator[]] is undefined behaviour. *)
Theorem at_checks_bounds c (index : Z) :
  0 <= index ->
  (index < size c ->
   exists x, nth_error (data c) (Z.to_nat index) = Some x /\
             at_ c index = Ok x /\ subscript c index = Ok x) /\
  (size c <= index ->
   (exists what, at_ c index = Throw (out_of_range what)) /\
   subscript c index = Undefined).
Proof.
  intros Hidx. unfold size, at_, subscript. split.
  - intros Hlt. unfold vec_size in Hlt.
    destruct (nth_error (data c) (Z.to_nat index)) as [x|] eqn:Hx.
    2:{ apply nth_error_None in Hx. lia. }
    exists x. repeat apply conj; [reflexivity| |].
    + now apply vec_at_in_range.
    + now apply vec_index_in_range.
  - intros Hge. split.
    + eexists. unfold vec_at. apply Z.leb_le in Hge. now rewrite Hge.
    + apply vec_index_out_of_range. now right.
Qed.

Lemma filter_no_occurrence value (v : list T) :
  occurrences eqb v value = 0 ->
  filter (fun x => negb (eqb x value)) v = v.
Proof.
  unfold occurrences, vec_size.
  induction v as [|x v IH]; [reflexivity|]. cbn [filter].
  destruct (eqb x value); cbn [negb length]; intros Hocc; [lia|].
  f_equal. now apply IH.
Qed.

Lemma occurrences_app value (v w : list T) :
  occurrences eqb (v ++ w) value
  = occurrences eqb v value + occurrences eqb w value.
Proof. unfold occurrences. now rewrite filter_app, vec_size_app. Qed.

Lemma occurrences_nonneg value (v : list T) : 0 <= occurrences eqb v value.
Proof. apply vec_size_nonneg. Qed.

(** What a [remove] of a value outside the vector leaves in the
    container when it returns. *)
Lemma remove_returns value c c' :
  remove eqb moved_from (External value) c = (Ok tt, c') ->
  data c' = filter (fun x => negb (eqb x value)) (data c).
Proof.
  intros Hrm. destruct (Z.eq_dec (occurrences eqb (data c) value) 0) as [E|E].
  - rewrite (remove_not_found eqb moved_from (External value) value) in Hrm
      by (reflexivity || assumption).
    discriminate.
  - rewrite remove_found in Hrm by assumption. now injection Hrm as <-.
Qed.

Lemma first_equal_appended value (v : list T) :
  eqb value value = true ->
  occurrences eqb v value = 0 ->
  first_equal eqb (v ++ [value]) value = length v.
Proof.
  intros Hrefl. unfold occurrences, vec_size.
  induction v as [|x v IH]; cbn [app first_equal filter length].
  - now rewrite Hrefl.
  - destruct (eqb x value); cbn [length]; intros Hocc; [lia|].
    f_equal. now apply IH.
Qed.

(** X3: Adding a value that the container does not hold and removing it again
    gives the container back, whether [remove] is handed the value from
    outside the container or a reference to the slot just appended. *)
Theorem remove_after_add_restores value c :
  eqb value value = true ->
  occurrences eqb (data c) value = 0 ->
  remove eqb moved_from (External value) (add value c) = (Ok tt, c) /\
  remove eqb moved_from (Slot (length (data c))) (add value c) = (Ok tt, c).
Proof.
  intros Hrefl Hocc. split.
  - rewrite remove_found.
    + f_equal. unfold add, push_back. cbn [data].
      rewrite filter_app, (filter_no_occurrence _ _ Hocc). cbn [filter].
      rewrite Hrefl. cbn [negb]. rewrite app_nil_r. apply container_eta.
    + unfold add, push_back. cbn [data]. rewrite occurrences_app, Hocc.
      unfold occurrences. cbn [filter]. rewrite Hrefl. cbn. lia.
  - unfold remove, std_remove, add, push_back. cbn [data].
    set (v := data c ++ [value]).
    assert (Hread : read v (Slot (length (data c))) = Ok value).
    { unfold v. cbn [read]. now rewrite nth_error_app2, Nat.sub_diag by lia. }
    assert (Hfirst : first_equal eqb v value = length (data c))
      by apply (first_equal_appended _ _ Hrefl Hocc).
    assert (Hlen : length v = S (length (data c)))
      by (unfold v; rewrite length_app; cbn; lia).
    rewrite !(std_find_read eqb v _ value Hread), Hfirst, Hlen.
    replace (length (data c) =? S (length (data c)))%nat with false
      by (symmetry; apply Nat.eqb_neq; lia).
    cbn [bind remove_loop]. rewrite ?Hlen, ?Nat.eqb_refl.
    destruct (length (data c) =? S (length (data c)))%nat.
    all: f_equal; unfold vec_erase; rewrite Hlen.
    all: replace (skipn (S (length (data c))) v) with (@nil T)
      by (symmetry; apply skipn_all2; lia).
    all: unfold v;
      rewrite firstn_app, firstn_all, Nat.sub_diag, firstn_O, !app_nil_r.
    all: apply container_eta.
Qed.

(** X4: After a [remove] of a value outside the container's vector that
    returned, a second [remove] of that value throws "Element not found"
    and changes nothing. *)
Theorem remove_twice_fails value c c' :
  remove eqb moved_from (External value) c = (Ok tt, c') ->
  remove eqb moved_from (External value) c'
  = (Throw (runtime_error "Element not found"%string), c').
Proof.
  intros Hrm. apply (remove_not_found eqb moved_from (External value) value);
    [reflexivity|].
  rewrite (remove_returns _ _ _ Hrm).
  unfold occurrences, vec_size.
  induction (data c) as [|x v IH]; [reflexivity|]. cbn [filter].
  destruct (eqb x value) eqn:E; cbn [negb]; [exact IH|].
  cbn [filter]. rewrite E. exact IH.
Qed.

(** X5: [remove] of a value outside the container's vector touches that
    value only: when [operator==] is symmetric and transitive, the number
    of slots equal to any value that differs from the removed one is
    unchanged. *)
Theorem remove_keeps_other_values value other c c' :
  (forall x y, eqb x y = true -> eqb y x = true) ->
  (forall x y z, eqb x y = true -> eqb y z = true -> eqb x z = true) ->
  eqb other value = false ->
  remove eqb moved_from (External value) c = (Ok tt, c') ->
  occurrences eqb (data c') other = occurrences eqb (data c) other.
Proof.
  intros Hsym Htrans Hdiff Hrm. rewrite (remove_returns _ _ _ Hrm).
  unfold occurrences, vec_size. f_equal. f_equal.
  induction (data c) as [|x v IH]; [reflexivity|]. cbn [filter].
  destruct (eqb x value) eqn:Ev; cbn [negb].
  - destruct (eqb x other) eqn:Eo; [|exact IH].
    apply Hsym in Eo. rewrite (Htrans _ _ _ Eo Ev) in Hdiff. discriminate.
  - cbn [filter]. destruct (eqb x other); [f_equal|]; exact IH.
Qed.

(** X6: A run of [add]s appends the values in the order of the calls. *)
Theorem adds_build_sequence (values : list T) c :
  data (apply_mutations eqb moved_from (map Add values) c) = data c ++ values /\
  size (apply_mutations eqb moved_from (map Add values) c)
  = size c + Z.of_nat (length values).
Proof.
  assert (Hdata : forall c0, data (apply_mutations eqb moved_from (map Add values) c0)
                             = data c0 ++ values).
  { unfold apply_mutations.
    induction values as [|x vs IH]; intros c0; cbn [map fold_left].
    - now rewrite app_nil_r.
    - rewrite IH. cbn [apply_mutation]. unfold add, push_back. cbn [data].
      now rewrite <- app_assoc. }
  split; [apply Hdata|].
  unfold size. rewrite Hdata, vec_size_app. unfold vec_size. reflexivity.
Qed.

End StoreFacts.

(** ** Dereferencing and resuming *)

Section ProtocolFacts.
Context {T I : Type} `{Iterator T I}.
Variable elems : MyContainer T -> I -> list T.
Variable what : string.
Hypothesis walks : Walks elems what.

Lemma walks_dereference_is_checked : dereference_is_checked elems what.
Proof.
  intros cont it Hwf Hpos.
  pose proof (walks_deref walks cont it Hwf Hpos) as Hderef.
  assert (Hin : position it < vec_size (elems cont it) ->
                exists x, nth_error (elems cont it) (Z.to_nat (position it)) = Some x /\
                          deref cont it = Ok x).
  { intros Hlt. rewrite Hderef.
    replace (vec_size (elems cont it) <=? position it) with false
      by (symmetry; apply Z.leb_gt; lia).
    destruct (nth_error (elems cont it) (Z.to_nat (position it))) as [x|] eqn:Hx.
    2:{ apply nth_error_None in Hx. unfold vec_size in *. lia. }
    exists x. split; [reflexivity|]. now apply vec_index_in_range. }
  assert (Hout : vec_size (elems cont it) <= position it ->
                 deref cont it = Throw (out_of_range what)).
  { intros Hge. rewrite Hderef. apply Z.leb_le in Hge. now rewrite Hge. }
  repeat apply conj; try assumption.
  - rewrite (walks_deref walks);
      rewrite ?(walks_end_elems walks), ?(walks_end_position walks);
      try assumption; try apply vec_size_nonneg.
    now rewrite Z.leb_refl.
  - destruct (Z_lt_le_dec (position it) (vec_size (elems cont it))) as [Hlt|Hge].
    + destruct (Hin Hlt) as [x [_ Hx]]. rewrite Hx. discriminate.
    + rewrite (Hout Hge). discriminate.
Qed.

Lemma advance_elems (n : nat) (cont : MyContainer T) (it : I) :
  elems cont (advance n it) = elems cont it.
Proof.
  revert it. induction n as [|n IH]; intros it; cbn [advance]; [reflexivity|].
  now rewrite IH, (walks_incr_elems walks).
Qed.

Lemma walks_traversal_resumes : traversal_resumes elems what.
Proof.
  intros cont view n Hwf Hpos.
  assert (Hmax : vec_size (elems cont view) < size_t_modulus)
    by (unfold vector_wf, vector_max_size, size_t_modulus in *; lia).
  pose proof (vec_size_nonneg (elems cont view)) as Hnonneg.
  assert (Hadv : Z.of_nat n < size_t_modulus ->
                 position (advance n view) = Z.of_nat n).
  { intros Hn. rewrite (advance_position _ _ walks) by (rewrite Hpos; lia).
    rewrite Hpos. apply size_t_wrap_small. lia. }
  split; intros Hn; unfold traverse; cbv zeta;
    rewrite (walks_begin walks), (walks_end_position walks), advance_elems.
  - rewrite (for_loop_walks _ _ walks);
      rewrite ?(walks_end_position walks), ?advance_elems, ?Hadv;
      try assumption; try lia.
    now rewrite Nat2Z.id.
  - apply (for_loop_past_end _ _ walks);
      rewrite ?(walks_end_position walks), ?advance_elems, ?Hadv;
      try assumption; try lia.
Qed.

End ProtocolFacts.

Section ProtocolOfTheClasses.
Context {T : Type}.

(** X12: In each of the six classes [operator*] yields the slot under a cursor
    that is before the end and throws [out_of_range] at the end and past
    it; the unchecked [operator[]] behind it is never reached out of
    range. *)
Theorem dereference_checked_in_all_classes :
  dereference_is_checked (fun (_ : MyContainer T) it => AscendingOrder_sorted T it)
                         "AscendingOrder dereference out of bounds" /\
  dereference_is_checked (fun (_ : MyContainer T) it => DescendingOrder_sorted T it)
                         "DescendingOrder dereference out of bounds" /\
  dereference_is_checked (fun (_ : MyContainer T) it => SideCrossOrder_order T it)
                         "SideCrossOrder dereference out of bounds" /\
  dereference_is_checked (fun (cont : MyContainer T) (_ : ReverseOrder) => rev (get_data cont))
                         "ReverseOrder dereference out of bounds" /\
  dereference_is_checked (fun (cont : MyContainer T) (_ : Order) => get_data cont)
                         "Order dereference out of bounds" /\
  dereference_is_checked (fun (_ : MyContainer T) it => MiddleOutOrder_order T it)
                         "MiddleOutOrder dereference out of bounds".
Proof.
  repeat apply conj; apply walks_dereference_is_checked.
  - apply AscendingOrder_walks.
  - apply DescendingOrder_walks.
  - apply SideCrossOrder_walks.
  - apply ReverseOrder_walks.
  - apply Order_walks.
  - apply MiddleOutOrder_walks.
Qed.

(** X13: In each of the six classes a range-for over a view whose own cursor
    was advanced [n] times visits the slots from [n] on, and throws
    [out_of_range] when the cursor was advanced past the end. *)
Theorem traversal_resumes_in_all_classes :
  traversal_resumes (fun (_ : MyContainer T) it => AscendingOrder_sorted T it)
                    "AscendingOrder dereference out of bounds" /\
  traversal_resumes (fun (_ : MyContainer T) it => DescendingOrder_sorted T it)
                    "DescendingOrder dereference out of bounds" /\
  traversal_resumes (fun (_ : MyContainer T) it => SideCrossOrder_order T it)
                    "SideCrossOrder dereference out of bounds" /\
  traversal_resumes (fun (cont : MyContainer T) (_ : ReverseOrder) => rev (get_data cont))
                    "ReverseOrder dereference out of bounds" /\
  traversal_resumes (fun (cont : MyContainer T) (_ : Order) => get_data cont)
                    "Order dereference out of bounds" /\
  traversal_resumes (fun (_ : MyContainer T) it => MiddleOutOrder_order T it)
                    "MiddleOutOrder dereference out of bounds".
Proof.
  repeat apply conj; apply walks_traversal_resumes.
  - apply AscendingOrder_walks.
  - apply DescendingOrder_walks.
  - apply SideCrossOrder_walks.
  - apply ReverseOrder_walks.
  - apply Order_walks.
  - apply MiddleOutOrder_walks.
Qed.

End ProtocolOfTheClasses.

(** ** What the sorted and the rearranged views hold *)

Section ArrangementFacts.
Context {T : Type}.

Lemma alternate_permutation (l r : list T) : Permutation (alternate l r) (l ++ r).
Proof.
  revert r. induction l as [|x l IH]; intros [|y r]; cbn [alternate app].
  - reflexivity.
  - reflexivity.
  - now rewrite app_nil_r.
  - rewrite IH. constructor. apply Permutation_middle.
Qed.

Lemma middle_out_spec_permutation (v : list T) : Permutation (middle_out_spec v) v.
Proof.
  unfold middle_out_spec. cbv zeta.
  destruct (nth_error v (length v / 2)) as [m|] eqn:Hm.
  - rewrite alternate_permutation, <- Permutation_rev.
    rewrite Permutation_middle.
    now rewrite (firstn_skipn_middle _ _ Hm).
  - apply nth_error_None in Hm. destruct v as [|x v]; [reflexivity|].
    assert (length (x :: v) / 2 < length (x :: v))%nat
      by (apply Nat.div_lt; cbn; lia).
    lia.
Qed.

Lemma strongly_sorted_last (R : T -> T -> Prop) (l : list T) (h : T) :
  StronglySorted R (l ++ [h]) -> Forall (fun y => R y h) l.
Proof.
  induction l as [|x l IH]; intros Hs; [constructor|].
  cbn [app] in Hs. inversion Hs as [|? ? Hs' Hx]; subst.
  constructor; [|now apply IH].
  rewrite Forall_forall in Hx. apply Hx, in_or_app. right. now left.
Qed.

Lemma strongly_sorted_rev (R : T -> T -> Prop) (l : list T) :
  StronglySorted R l -> StronglySorted (fun a b => R b a) (rev l).
Proof.
  induction l as [|x l IH]; intros Hs; [constructor|].
  inversion Hs as [|? ? Hs' Hx]; subst. cbn [rev].
  specialize (IH Hs'). revert IH.
  assert (Hall : Forall (fun y => R x y) (rev l)).
  { rewrite Forall_forall in *. intros y Hy. apply Hx. now apply in_rev. }
  induction (rev l) as [|z w IHw]; intros Hsw; cbn [app].
  - repeat constructor.
  - inversion Hsw as [|? ? Hsw' Hz]; subst.
    inversion Hall as [|? ? Hxz Hall']; subst.
    constructor; [now apply IHw|].
    apply Forall_app. split; [assumption|]. now constructor.
Qed.

(** With an order in which two elements neither of which is before the
    other are the same element, a vector has one sorted arrangement. *)
Lemma sorted_arrangement_unique (ltb : T -> T -> bool) (v w : list T) :
  (forall a b, ltb a b = false -> ltb b a = false -> a = b) ->
  sorted_by ltb v -> sorted_by ltb w -> Permutation v w -> v = w.
Proof.
  intros Hanti. unfold sorted_by. revert w.
  induction v as [|x v IH]; intros w Hv Hw Hperm.
  - apply Permutation_nil in Hperm. congruence.
  - destruct w as [|y w].
    + apply Permutation_sym, Permutation_nil in Hperm. discriminate.
    + inversion Hv as [|? ? Hv' Hx]; inversion Hw as [|? ? Hw' Hy]; subst.
      rewrite Forall_forall in Hx, Hy.
      assert (Hxy : x = y).
      { assert (Hin1 : In x (y :: w))
          by (apply (Permutation_in _ Hperm); now left).
        assert (Hin2 : In y (x :: v))
          by (apply (Permutation_in _ (Permutation_sym Hperm)); now left).
        destruct Hin1 as [->|Hin1]; [reflexivity|].
        destruct Hin2 as [->|Hin2]; [reflexivity|].
        apply Hanti; [now apply Hy | now apply Hx]. }
      subst y. f_equal. apply IH; try assumption.
      now apply Permutation_cons_inv in Hperm.
Qed.

End ArrangementFacts.

Section ViewContents.
Context {T : Type}.
Variables ltb gtb : T -> T -> bool.
Variable std_sort : (T -> T -> bool) -> list T -> list T.
Hypothesis contract : SortContract std_sort.
Hypothesis ltb_swo : strict_weak_order ltb.
Hypothesis gtb_swo : strict_weak_order gtb.

Implicit Types (c : MyContainer T).

(** X7: A full traversal of the descending view returns; what it yields is
    sorted with respect to [operator>] (no element is greater than an
    earlier one) and is a permutation of the container's vector. *)
Theorem descending_sorted_permutation c :
  vector_wf (data c) ->
  exists out,
    traverse c (descending_order gtb std_sort c) = Ok out /\
    sorted_by gtb out /\
    Permutation out (data c).
Proof.
  intros Hwf. exists (std_sort gtb (data c)). repeat apply conj.
  - now apply descending_traverse.
  - now apply (sort_sorts T std_sort contract).
  - now apply (sort_permutes T std_sort contract).
Qed.

(** X8: When [operator>] is the converse of [operator<] and two elements
    neither of which is smaller are the same element, the descending
    traversal is the ascending traversal read backward. *)
Theorem descending_is_ascending_backward c :
  (forall a b, gtb a b = ltb b a) ->
  (forall a b, ltb a b = false -> ltb b a = false -> a = b) ->
  vector_wf (data c) ->
  exists out,
    traverse c (ascending_order ltb std_sort c) = Ok out /\
    traverse c (descending_order gtb std_sort c) = Ok (rev out).
Proof.
  intros Hconv Hanti Hwf. exists (std_sort ltb (data c)). split.
  - now apply ascending_traverse.
  - rewrite descending_traverse by assumption. f_equal.
    rewrite <- (rev_involutive (std_sort gtb (data c))). f_equal.
    apply (sorted_arrangement_unique ltb); [assumption| | |].
    + pose proof (sort_sorts T std_sort contract gtb (data c) gtb_swo) as Hs.
      apply strongly_sorted_rev in Hs. unfold sorted_by.
      eapply StronglySorted_ind with (P := StronglySorted _);
        [constructor| |exact Hs].
      intros a l _ IH Ha. constructor; [exact IH|].
      rewrite Forall_forall in *. intros y Hy.
      specialize (Ha y Hy). cbv beta in Ha. now rewrite Hconv in Ha.
    + now apply (sort_sorts T std_sort contract).
    + rewrite <- Permutation_rev.
      rewrite (sort_permutes T std_sort contract gtb (data c) gtb_swo).
      symmetry. now apply (sort_permutes T std_sort contract).
Qed.

(** X9: The side-cross view neither loses nor repeats a slot: its full
    traversal is a permutation of the container's vector. *)
Theorem sidecross_is_permutation c :
  vector_wf (data c) ->
  exists v out,
    sidecross_order ltb std_sort c = Ok v /\
    traverse c v = Ok out /\
    Permutation out (data c).
Proof.
  intros Hwf.
  destruct (sidecross_traverse ltb std_sort contract ltb_swo c c Hwf)
    as [v [Hv Ht]].
  exists v. eexists. repeat apply conj; [exact Hv | exact Ht |].
  rewrite side_cross_of_sorted_permutation.
  now apply (sort_permutes T std_sort contract).
Qed.

(** X10: On a container of two or more elements the side-cross traversal
    starts with a smallest element followed by a largest one: nothing in
    the container is smaller than the first, nothing greater than the
    second. *)
Theorem sidecross_starts_with_extremes c :
  vector_wf (data c) -> 2 <= size c ->
  exists v lo hi rest,
    sidecross_order ltb std_sort c = Ok v /\
    traverse c v = Ok (lo :: hi :: rest) /\
    Forall (fun y => ltb y lo = false) (data c) /\
    Forall (fun y => ltb hi y = false) (data c).
Proof.
  intros Hwf Hsz.
  destruct (sidecross_traverse ltb std_sort contract ltb_swo c c Hwf)
    as [v [Hv Ht]].
  pose proof (sort_permutes T std_sort contract ltb (data c) ltb_swo) as Hperm.
  pose proof (sort_sorts T std_sort contract ltb (data c) ltb_swo) as Hsorted.
  pose proof (Permutation_length Hperm) as Hlen.
  unfold size, vec_size in Hsz.
  set (s := std_sort ltb (data c)) in *.
  destruct s as [|lo s'] eqn:Hs; [cbn in Hlen; lia|].
  destruct (rev s') as [|hi r] eqn:Hrev.
  { apply (f_equal (@rev T)) in Hrev. rewrite rev_involutive in Hrev.
    subst s'. cbn in Hlen. lia. }
  assert (Hs' : s' = rev r ++ [hi]).
  { apply (f_equal (@rev T)) in Hrev. now rewrite rev_involutive in Hrev. }
  exists v, lo, hi.
  assert (Hside : exists rest, side_cross_of_sorted (lo :: s') = lo :: hi :: rest).
  { unfold side_cross_of_sorted. cbn [rev]. rewrite Hrev. cbn [app].
    rewrite Hs'. cbn [length]. rewrite length_app. cbn [length].
    replace (S (length (rev r) + 1)) with (S (S (length (rev r)))) by lia.
    cbn [take_alternately]. rewrite <- Hs'.
    destruct s' as [|x s'']; [destruct (rev r); discriminate|].
    eexists. reflexivity. }
  destruct Hside as [rest Hside]. exists rest.
  rewrite Hside in Ht. repeat apply conj; [exact Hv | exact Ht | |].
  - apply (Permutation_Forall Hperm). unfold sorted_by in Hsorted.
    inversion Hsorted as [|? ? _ Hlo]; subst.
    constructor; [apply (swo_irrefl T ltb ltb_swo) | exact Hlo].
  - apply (Permutation_Forall Hperm). unfold sorted_by in Hsorted.
    rewrite Hs' in *.
    change (lo :: rev r ++ [hi]) with ((lo :: rev r) ++ [hi]) in Hsorted |- *.
    apply Forall_app. split.
    + now apply strongly_sorted_last in Hsorted.
    + constructor; [apply (swo_irrefl T ltb ltb_swo) | constructor].
Qed.

(** X11: On a container whose size fits in [int] the middle-out view neither
    loses nor repeats a slot: its full traversal is a permutation of the
    container's vector. *)
Theorem middle_out_is_permutation c :
  size c <= INT_MAX ->
  exists v out,
    middle_out_order c = Ok v /\
    traverse c v = Ok out /\
    Permutation out (data c).
Proof.
  intros Hsz. destruct (middle_out_traverse c c Hsz) as [v [Hv Ht]].
  exists v. eexists. repeat apply conj; [exact Hv | exact Ht |].
  apply middle_out_spec_permutation.
Qed.

End ViewContents.

(** ** Printing *)

Section PrintingFacts.
Context {T : Type}.
Variable show : T -> string.

Lemma string_app_assoc (a b c : string) : ((a ++ b) ++ c = a ++ (b ++ c))%string.
Proof. induction a as [|ch a IH]; cbn; [reflexivity | now rewrite IH]. Qed.

Lemma string_app_nil_r (a : string) : (a ++ "")%string = a.
Proof. induction a as [|ch a IH]; cbn; [reflexivity | now rewrite IH]. Qed.

(** Invariant of the loop: from index [i] it writes the slots from [i]
    on, a separator after each but the last. *)
Lemma print_loop_spec (fuel i : nat) (c : MyContainer T) (os : string) :
  vector_wf (data c) ->
  (length (data c) - i < fuel)%nat ->
  print_loop show fuel c (Z.of_nat i) os
  = Ok (os ++ String.concat ", " (map show (skipn i (data c))))%string.
Proof.
  intros Hwf. unfold vector_wf, vector_max_size, vec_size in Hwf.
  revert i os. induction fuel as [|fuel IH]; intros i os Hfuel; [lia|].
  cbn [print_loop]. unfold get_data, vec_size.
  destruct (Z.of_nat i <? Z.of_nat (length (data c))) eqn:E.
  - apply Z.ltb_lt in E.
    destruct (nth_error (data c) i) as [x|] eqn:Hx.
    2:{ apply nth_error_None in Hx. lia. }
    rewrite (vec_index_nat _ _ _ Hx). cbn [bind]. cbv zeta.
    rewrite size_t_wrap_small by (unfold size_t_modulus; lia).
    replace (Z.of_nat i + 1) with (Z.of_nat (S i)) by lia.
    rewrite IH by lia.
    rewrite (skipn_nth_error_cons _ _ _ Hx). cbn [map].
    destruct (Z.of_nat (S i) <? Z.of_nat (length (data c))) eqn:E1.
    + apply Z.ltb_lt in E1.
      destruct (nth_error (data c) (S i)) as [y|] eqn:Hy.
      2:{ apply nth_error_None in Hy. lia. }
      rewrite (skipn_nth_error_cons _ _ _ Hy). cbn [map String.concat].
      now rewrite !string_app_assoc.
    + apply Z.ltb_ge in E1.
      rewrite skipn_all2 by lia. cbn [map String.concat].
      now rewrite string_app_nil_r.
  - apply Z.ltb_ge in E. rewrite skipn_all2 by lia.
    cbn [map String.concat]. now rewrite string_app_nil_r.
Qed.

(** X14: [operator<<] returns and appends to the stream the elements in
    insertion order between braces, separated by ", ", with no separator
    after the last one; an empty container is written as "{}". *)
Theorem print_renders_braced_list (os : string) (c : MyContainer T) :
  vector_wf (data c) ->
  operator_shift_left show os c = Ok (os ++ rendering show c)%string /\
  (data c = [] -> operator_shift_left show os c = Ok (os ++ "{}")%string).
Proof.
  intros Hwf.
  assert (Hprint : operator_shift_left show os c
                   = Ok (os ++ rendering show c)%string).
  { unfold operator_shift_left, get_data.
    rewrite (print_loop_spec (S (length (data c))) 0 c) by (assumption || lia).
    cbn [bind skipn]. unfold rendering. f_equal.
    now rewrite !string_app_assoc. }
  split; [exact Hprint|].
  intros Hnil. rewrite Hprint. unfold rendering. now rewrite Hnil.
Qed.

End PrintingFacts.

(** ** The middle-out constructor beyond the range of [int] *)

Lemma static_cast_int_high (z : Z) :
  2 ^ 31 <= z < 2 ^ 32 -> static_cast_int z = z - 2 ^ 32.
Proof.
  intros Hz. unfold static_cast_int.
  replace (z + 2 ^ 31) with (z - 2 ^ 31 + 1 * 2 ^ 32) by lia.
  rewrite Z.mod_add by lia. rewrite Z.mod_small; lia.
Qed.

(** X15: On a container of at least [2^31] and fewer than [2^32 - 2] elements
    the size converted to [int] is negative and the constructor emits the
    middle and the slots left of it, nearest first, and none of the
    slots right of it. *)
Theorem middle_out_drops_right_side (T : Type) (c : MyContainer T) :
  2 ^ 31 <= size c < 2 ^ 32 - 2 ->
  exists m,
    nth_error (data c) (Z.to_nat (size c / 2)) = Some m /\
    middle_out_order c
    = Ok {| MiddleOutOrder_order :=
              m :: rev (firstn (Z.to_nat (size c / 2)) (data c));
            MiddleOutOrder_pos := 0 |}.
Proof.
  destruct c as [v]. unfold size. cbn [data]. intros Hsz.
  destruct (MiddleOutOrder_ctor_spec v) as [m [Hm Hctor]]; [lia|].
  exists m. split; [exact Hm|].
  unfold middle_out_order. rewrite Hctor.
  rewrite static_cast_int_high by lia.
  assert (Hmid : 0 <= vec_size v / 2) by (apply Z.div_pos; lia).
  replace (Z.to_nat (vec_size v - 2 ^ 32 - (vec_size v / 2 + 1))) with O by lia.
  cbn [firstn]. now rewrite alternate_nil_r.
Qed.

(** X16: On a container of [2^32 - 2] or [2^32 - 1] elements the middle index
    is [INT_MAX], and [static_cast<int>(mid) + 1] overflows: the
    constructor has undefined behaviour. *)
Theorem middle_out_overflows (T : Type) (c : MyContainer T) :
  2 ^ 32 - 2 <= size c <= 2 ^ 32 - 1 ->
  middle_out_order c = Undefined.
Proof.
  destruct c as [v]. unfold size, middle_out_order, MiddleOutOrder_ctor, get_data.
  cbn [data]. intros Hsz.
  rewrite vec_empty_false by lia. cbv zeta.
  assert (Hmid : vec_size v / 2 = INT_MAX).
  { unfold INT_MAX. symmetry. apply Z.div_unique with (r := vec_size v - (2 ^ 32 - 2)); lia. }
  rewrite Hmid.
  destruct (nth_error v (Z.to_nat INT_MAX)) as [m|] eqn:Hm.
  2:{ apply nth_error_None in Hm. unfold vec_size, INT_MAX in *. lia. }
  rewrite (vec_index_in_range _ _ _ Hm) by (unfold INT_MAX; lia).
  cbn [bind].
  rewrite static_cast_int_small by (unfold INT_MIN, INT_MAX; lia).
  reflexivity.
Qed.

(** ** Views of a container after a removal *)

Section ViewsAfterRemove.
Context {T : Type}.
Variables eqb ltb gtb : T -> T -> bool.
Variable std_sort : (T -> T -> bool) -> list T -> list T.
Variable moved_from : T -> T.
Hypothesis contract : SortContract std_sort.
Hypothesis ltb_swo : strict_weak_order ltb.
Hypothesis gtb_swo : strict_weak_order gtb.

(** X17: After a [remove] of a value outside the container's vector that
    returned, no view created from the container visits a slot equal to
    the removed value. *)
Theorem removed_value_is_never_visited (value : T) (c c' : MyContainer T) :
  remove eqb moved_from (External value) c = (Ok tt, c') ->
  vector_wf (data c') -> size c' <= INT_MAX ->
  let gone := Forall (fun x => eqb x value = false) in
  (exists out, traverse c' (ascending_order ltb std_sort c') = Ok out /\ gone out) /\
  (exists out, traverse c' (descending_order gtb std_sort c') = Ok out /\ gone out) /\
  (exists v out, sidecross_order ltb std_sort c' = Ok v /\
                 traverse c' v = Ok out /\ gone out) /\
  (exists out, traverse c' (reverse_order c') = Ok out /\ gone out) /\
  (exists out, traverse c' (order c') = Ok out /\ gone out) /\
  (exists v out, middle_out_order c' = Ok v /\
                 traverse c' v = Ok out /\ gone out).
Proof.
  intros Hrm Hwf Hsz gone.
  assert (Hgone : gone (data c')).
  { unfold gone. rewrite (remove_returns eqb moved_from _ _ _ Hrm).
    apply Forall_forall. intros x Hx. apply filter_In in Hx.
    destruct Hx as [_ Hx]. now apply negb_true_iff in Hx. }
  assert (Hperm : forall out, Permutation out (data c') -> gone out).
  { intros out Hp. unfold gone.
    exact (Permutation_Forall (Permutation_sym Hp) Hgone). }
  repeat apply conj.
  - eexists. split; [now apply ascending_traverse|].
    now apply Hperm, (sort_permutes T std_sort contract).
  - eexists. split; [now apply descending_traverse|].
    now apply Hperm, (sort_permutes T std_sort contract).
  - destruct (sidecross_traverse ltb std_sort contract ltb_swo c' c' Hwf)
      as [v [Hv Ht]].
    exists v. eexists. repeat apply conj; [exact Hv | exact Ht |].
    apply Hperm. rewrite side_cross_of_sorted_permutation.
    now apply (sort_permutes T std_sort contract).
  - eexists. split; [now apply reverse_traverse|].
    apply Hperm. symmetry. apply Permutation_rev.
  - eexists. split; [now apply order_traverse|]. exact Hgone.
  - destruct (middle_out_traverse c' c' Hsz) as [v [Hv Ht]].
    exists v. eexists. repeat apply conj; [exact Hv | exact Ht |].
    apply Hperm, middle_out_spec_permutation.
Qed.

End ViewsAfterRemove.

(** ** The further statements at concrete containers *)

Lemma at_checks_bounds_witness :
  0 <= 1 /\
  (exists x, nth_error [10; 20; 30] 1 = Some x /\
             at_ (int_store [10; 20; 30]) 1 = Ok x /\
             subscript (int_store [10; 20; 30]) 1 = Ok x).
Proof.
  assert (H0 : 0 <= 1) by lia.
  split; [exact H0|].
  apply (proj1 (at_checks_bounds (int_store [10; 20; 30]) 1 H0)).
  cbn. lia.
Defined.

Lemma remove_after_add_restores_witness :
  Z.eqb 5 5 = true /\ occurrences Z.eqb [1; 2; 1] 5 = 0 /\
  remove Z.eqb int_moved_from (External 5) (add 5 (int_store [1; 2; 1]))
  = (Ok tt, int_store [1; 2; 1]) /\
  remove Z.eqb int_moved_from (Slot 3) (add 5 (int_store [1; 2; 1]))
  = (Ok tt, int_store [1; 2; 1]).
Proof.
  split; [reflexivity|]. split; [reflexivity|].
  exact (remove_after_add_restores Z.eqb int_moved_from 5 (int_store [1; 2; 1])
           eq_refl eq_refl).
Defined.

Lemma remove_twice_fails_witness :
  remove Z.eqb int_moved_from (External 1) (int_store [1; 2; 1])
  = (Ok tt, int_store [2]) /\
  remove Z.eqb int_moved_from (External 1) (int_store [2])
  = (Throw (runtime_error "Element not found"), int_store [2]).
Proof.
  split; [reflexivity|].
  exact (remove_twice_fails Z.eqb int_moved_from 1
           (int_store [1; 2; 1]) (int_store [2]) eq_refl).
Defined.

Lemma Zeqb_sym (x y : Z) : Z.eqb x y = true -> Z.eqb y x = true.
Proof. rewrite !Z.eqb_eq. congruence. Qed.

Lemma Zeqb_trans (x y z : Z) :
  Z.eqb x y = true -> Z.eqb y z = true -> Z.eqb x z = true.
Proof. rewrite !Z.eqb_eq. congruence. Qed.

Lemma remove_keeps_other_values_witness :
  Z.eqb 2 1 = false /\
  remove Z.eqb int_moved_from (External 1) (int_store [1; 2; 1; 2; 3])
  = (Ok tt, int_store [2; 2; 3]) /\
  occurrences Z.eqb [2; 2; 3] 2 = occurrences Z.eqb [1; 2; 1; 2; 3] 2.
Proof.
  split; [reflexivity|]. split; [reflexivity|].
  exact (remove_keeps_other_values Z.eqb int_moved_from 1 2
           (int_store [1; 2; 1; 2; 3]) (int_store [2; 2; 3])
           Zeqb_sym Zeqb_trans eq_refl eq_refl).
Defined.

Lemma descending_sorted_permutation_witness :
  SortContract (@insertion_sort Z) /\ strict_weak_order Z.gtb /\
  vector_wf (data (int_store [7; 15; 6; 1; 2])) /\
  exists out,
    traverse (int_store [7; 15; 6; 1; 2]) (int_descending (int_store [7; 15; 6; 1; 2]))
      = Ok out /\
    sorted_by Z.gtb out /\
    Permutation out [7; 15; 6; 1; 2].
Proof.
  assert (Hwf : vector_wf (data (int_store [7; 15; 6; 1; 2]))) by solve_wf.
  split; [apply insertion_sort_contract|]. split; [apply Zgtb_swo|].
  split; [exact Hwf|].
  exact (descending_sorted_permutation Z.gtb insertion_sort
           (insertion_sort_contract Z) Zgtb_swo
           (int_store [7; 15; 6; 1; 2]) Hwf).
Defined.

Lemma Zltb_incomparable_eq (a b : Z) :
  Z.ltb a b = false -> Z.ltb b a = false -> a = b.
Proof. rewrite !Z.ltb_ge. lia. Qed.

Lemma descending_is_ascending_backward_witness :
  vector_wf (data (int_store [7; 15; 6; 1; 2])) /\
  exists out,
    traverse (int_store [7; 15; 6; 1; 2]) (int_ascending (int_store [7; 15; 6; 1; 2]))
      = Ok out /\
    traverse (int_store [7; 15; 6; 1; 2]) (int_descending (int_store [7; 15; 6; 1; 2]))
      = Ok (rev out).
Proof.
  assert (Hwf : vector_wf (data (int_store [7; 15; 6; 1; 2]))) by solve_wf.
  split; [exact Hwf|].
  exact (descending_is_ascending_backward Z.ltb Z.gtb insertion_sort
           (insertion_sort_contract Z) Zltb_swo Zgtb_swo
           (int_store [7; 15; 6; 1; 2]) Z.gtb_ltb Zltb_incomparable_eq Hwf).
Defined.

Lemma sidecross_is_permutation_witness :
  vector_wf (data (int_store [7; 15; 6; 1; 2])) /\
  exists v out,
    int_sidecross (int_store [7; 15; 6; 1; 2]) = Ok v /\
    traverse (int_store [7; 15; 6; 1; 2]) v = Ok out /\
    Permutation out [7; 15; 6; 1; 2].
Proof.
  assert (Hwf : vector_wf (data (int_store [7; 15; 6; 1; 2]))) by solve_wf.
  split; [exact Hwf|].
  exact (sidecross_is_permutation Z.ltb insertion_sort
           (insertion_sort_contract Z) Zltb_swo
           (int_store [7; 15; 6; 1; 2]) Hwf).
Defined.

Lemma sidecross_starts_with_extremes_witness :
  vector_wf (data (int_store [7; 15; 6; 1; 2])) /\
  2 <= size (int_store [7; 15; 6; 1; 2]) /\
  exists v lo hi rest,
    int_sidecross (int_store [7; 15; 6; 1; 2]) = Ok v /\
    traverse (int_store [7; 15; 6; 1; 2]) v = Ok (lo :: hi :: rest) /\
    Forall (fun y => Z.ltb y lo = false) [7; 15; 6; 1; 2] /\
    Forall (fun y => Z.ltb hi y = false) [7; 15; 6; 1; 2].
Proof.
  assert (Hwf : vector_wf (data (int_store [7; 15; 6; 1; 2]))) by solve_wf.
  assert (Hsz : 2 <= size (int_store [7; 15; 6; 1; 2])) by (cbn; lia).
  split; [exact Hwf|]. split; [exact Hsz|].
  exact (sidecross_starts_with_extremes Z.ltb insertion_sort
           (insertion_sort_contract Z) Zltb_swo
           (int_store [7; 15; 6; 1; 2]) Hwf Hsz).
Defined.

Lemma middle_out_is_permutation_witness :
  size (int_store [7; 15; 6; 1; 2]) <= INT_MAX /\
  exists v out,
    middle_out_order (int_store [7; 15; 6; 1; 2]) = Ok v /\
    traverse (int_store [7; 15; 6; 1; 2]) v = Ok out /\
    Permutation out [7; 15; 6; 1; 2].
Proof.
  assert (Hsz : size (int_store [7; 15; 6; 1; 2]) <= INT_MAX)
    by (unfold INT_MAX; cbn; lia).
  split; [exact Hsz|].
  exact (middle_out_is_permutation (int_store [7; 15; 6; 1; 2]) Hsz).
Defined.

Lemma dereference_checked_in_all_classes_witness :
  let c := int_store [10; 20; 30] in
  let it := incr (T:=Z) (reverse_order c) in
  (exists x, nth_error (rev [10; 20; 30]) 1 = Some x /\ deref c it = Ok x) /\
  deref c (end_ c it)
  = Throw (out_of_range "ReverseOrder dereference out of bounds").
Proof.
  cbv zeta.
  set (c := int_store [10; 20; 30]). set (it := incr (T:=Z) (reverse_order c)).
  destruct (@dereference_checked_in_all_classes Z)
    as (_ & _ & _ & Hrev & _ & _).
  destruct (Hrev c it ltac:(solve_wf) ltac:(cbn; lia)) as (Hin & _ & Hend & _).
  split; [apply Hin; cbn; lia | exact Hend].
Defined.

Lemma traversal_resumes_in_all_classes_witness :
  let c := int_store [4; 8; 6] in
  traverse c (advance 1 (int_ascending c)) = Ok [6; 8] /\
  traverse c (advance 5 (int_ascending c))
  = Throw (out_of_range "AscendingOrder dereference out of bounds").
Proof.
  cbv zeta. set (c := int_store [4; 8; 6]).
  destruct (@traversal_resumes_in_all_classes Z) as (Hasc & _).
  split.
  - exact (proj1 (Hasc c (int_ascending c) 1%nat ltac:(solve_wf) eq_refl)
             ltac:(cbn; lia)).
  - exact (proj2 (Hasc c (int_ascending c) 5%nat ltac:(solve_wf) eq_refl)
             ltac:(unfold size_t_modulus; cbn; lia)).
Defined.

Lemma print_renders_braced_list_witness :
  let c := mkContainer [""; "@@@"; "hello"; "world"; ""]%string in
  vector_wf (data c) /\
  operator_shift_left (fun s : string => s) "" c
  = Ok "{, @@@, hello, world, }"%string.
Proof.
  cbv zeta.
  set (c := mkContainer [""; "@@@"; "hello"; "world"; ""]%string).
  assert (Hwf : vector_wf (data c)) by solve_wf.
  split; [exact Hwf|].
  exact (proj1 (print_renders_braced_list (fun s : string => s) "" c Hwf)).
Defined.

Lemma overflow_store_size : vec_size (data overflow_store) = 2 ^ 32 - 2.
Proof.
  unfold overflow_store, vec_size. cbn [data].
  rewrite repeat_length. apply Z2Nat.id. lia.
Qed.

Lemma middle_out_drops_right_side_witness :
  2 ^ 31 <= size huge_store < 2 ^ 32 - 2 /\
  exists m,
    nth_error (data huge_store) (Z.to_nat (size huge_store / 2)) = Some m /\
    middle_out_order huge_store
    = Ok {| MiddleOutOrder_order :=
              m :: rev (firstn (Z.to_nat (size huge_store / 2)) (data huge_store));
            MiddleOutOrder_pos := 0 |}.
Proof.
  assert (Hsz : 2 ^ 31 <= size huge_store < 2 ^ 32 - 2)
    by (unfold size; rewrite huge_store_size; lia).
  split; [exact Hsz|].
  exact (middle_out_drops_right_side Z huge_store Hsz).
Defined.

Lemma middle_out_overflows_witness :
  2 ^ 32 - 2 <= size overflow_store <= 2 ^ 32 - 1 /\
  middle_out_order overflow_store = Undefined.
Proof.
  assert (Hsz : 2 ^ 32 - 2 <= size overflow_store <= 2 ^ 32 - 1)
    by (unfold size; rewrite overflow_store_size; lia).
  split; [exact Hsz|].
  exact (middle_out_overflows Z overflow_store Hsz).
Defined.

Lemma removed_value_is_never_visited_witness :
  let c := int_store [1; 2; 1; 3] in
  let c' := int_store [2; 3] in
  remove Z.eqb int_moved_from (External 1) c = (Ok tt, c') /\
  (exists out, traverse c' (int_ascending c') = Ok out /\
               Forall (fun x => Z.eqb x 1 = false) out).
Proof.
  cbv zeta. split; [reflexivity|].
  exact (proj1 (removed_value_is_never_visited Z.eqb Z.ltb Z.gtb insertion_sort
                  int_moved_from
                  (insertion_sort_contract Z) Zltb_swo Zgtb_swo
                  1 (int_store [1; 2; 1; 3]) (int_store [2; 3])
                  eq_refl ltac:(solve_wf) ltac:(unfold INT_MAX; cbn; lia))).
Defined.
